(** * PDFToAudio: the per-document pipeline of [main.py]

    A shallow embedding of [main.py] and the properties of its specification.

    Python values are modelled as follows.
    - [str] is a list of Unicode code points ([list N]); [bytes] is a list of
      byte values.
    - [int] is [Z] (Python integers are unbounded).
    - A [pathlib.Path] is the string it prints as; the operators of [pathlib]
      ([/], [.stem], [.name]) are parameters of the development, and a path
      exists when the world has a file under it.
    - Exceptions are values of [exn]; a computation either returns or raises,
      and the effects performed before a raise persist.

    Effects are events of a free monad [Prog].  The same program is given two
    semantics: [run] executes it alone on a [World] (the sequential
    interpreter), and [pool_step] interleaves the events of several programs
    (the worker pool of [main] in parallel mode).

    The collaborators that are not part of the repository are parameters,
    gathered in the class [Collaborators]: the speech service ([gTTS]), the
    PDF library ([pdfplumber]), the image library ([PIL]), the OCR engine
    ([pytesseract]), [pathlib] and [md5].  What is assumed of them is stated
    where they are introduced; in particular the operations on an opened
    page do not fail.  A synthesis attempt that fails may leave a file at
    the destination: [gTTS.save] opens the destination before it sends the
    request, so that what is left is empty or a part of the audio.
    [time.sleep] raises [ValueError] for a negative duration and refuses the
    durations beyond what the platform can represent.  [time.time], the
    elapsed-time figure of the last notice, and failures of the file system
    on writes are outside the model. *)

From stdpp Require Import base list list_numbers strings gmap sets relations.
From Stdlib Require Import ZArith Lia.

Local Open Scope Z_scope.
Local Set Warnings "-clear-no-such-hyp".

(** ** Python strings *)

Definition str := list N.
Definition bytes := list N.

(** A literal of the source, as a list of code points. *)
Definition lit (s : string) : str :=
  Ascii.N_of_ascii <$> String.list_ascii_of_string s.
Arguments lit s%_string.

(** [str.isspace] for one character: CPython's [_PyUnicode_IsWhitespace]. *)
Definition isspace (c : N) : bool :=
  match c with
  | 0x09 | 0x0A | 0x0B | 0x0C | 0x0D
  | 0x1C | 0x1D | 0x1E | 0x1F | 0x20
  | 0x85 | 0xA0 | 0x1680
  | 0x2000 | 0x2001 | 0x2002 | 0x2003 | 0x2004 | 0x2005
  | 0x2006 | 0x2007 | 0x2008 | 0x2009 | 0x200A
  | 0x2028 | 0x2029 | 0x202F | 0x205F | 0x3000 => true
  | _ => false
  end%N.

Fixpoint lstrip (s : str) : str :=
  match s with
  | c :: s' => if isspace c then lstrip s' else s
  | [] => []
  end.

Definition rstrip (s : str) : str := reverse (lstrip (reverse s)).

(** [s.strip()] with no argument. *)
Definition strip (s : str) : str := rstrip (lstrip s).

(** Truth value of a string: [if s:] holds when [s] is not empty. *)
Definition truthy (s : str) : bool :=
  match s with [] => false | _ :: _ => true end.

Fixpoint startswith (prefix s : str) : bool :=
  match prefix, s with
  | [], _ => true
  | _ :: _, [] => false
  | a :: prefix', b :: s' => (a =? b)%N && startswith prefix' s'
  end.

(** [needle in s] on strings: [needle] occurs as a substring of [s]. *)
Fixpoint contains (needle s : str) : bool :=
  startswith needle s ||
  match s with
  | [] => false
  | _ :: s' => contains needle s'
  end.

(** [range(n)]: empty when [n <= 0]. *)
Definition range (n : Z) : list Z := seqZ 0 n.

(** ** Exceptions, files, notices *)

Inductive exn : Type :=
  | gTTSError (msg : str)
  | RuntimeError (msg : str)
  | ValueError (msg : str)
  | OtherException (cls msg : str).

Definition Path := str.
Global Instance Path_eq_dec : EqDecision Path := list_eq_dec.
Global Instance Path_countable : Countable Path := list_countable.

Inductive FileData : Type :=
  | TextFile (text : str)       (* written by [save_text_to_file], UTF-8 *)
  | AudioFile (data : bytes).   (* written by [gTTS.save] *)

(** The lines the program prints, one constructor per [print] of the
    source. *)
Inductive Notice : Type :=
  | UsingExisting (filename : str)
  | RateLimitHit (retry_delay : Z)
  | NoTextFound (pdf_name : str)
  | Processed (pdf_name : str).

(** The state the program acts on: the files on disk, and the logs of the
    synthesis attempts made, the sleeps taken and the notices printed, in
    order. *)
Record World : Type := mkWorld {
  files : gmap Path FileData;
  tts_calls : list (str * str);
  sleeps : list Z;
  stdout : list Notice
}.

Definition set_files (f : gmap Path FileData → gmap Path FileData) (w : World) : World :=
  mkWorld (f (files w)) (tts_calls w) (sleeps w) (stdout w).
Definition log_tts_call (c : str * str) (w : World) : World :=
  mkWorld (files w) (tts_calls w ++ [c]) (sleeps w) (stdout w).
Definition log_sleep (d : Z) (w : World) : World :=
  mkWorld (files w) (tts_calls w) (sleeps w ++ [d]) (stdout w).
Definition log_notice (n : Notice) (w : World) : World :=
  mkWorld (files w) (tts_calls w) (sleeps w) (stdout w ++ [n]).

(** ** Programs *)

(** The atomic events of the program. *)
Inductive Eff : Type → Type :=
  | PathExists (p : Path) : Eff bool
  | WriteText (p : Path) (text : str) : Eff unit
  | GttsSave (text lang : str) (p : Path) : Eff (option exn)
  | Sleep (secs : Z) : Eff unit
  | Print (n : Notice) : Eff unit.

Inductive Prog (A : Type) : Type :=
  | Ret (a : A)
  | Raise (e : exn)
  | Vis {X : Type} (op : Eff X) (k : X → Prog A).
Arguments Ret {A} a.
Arguments Raise {A} e.
Arguments Vis {A X} op k.

Fixpoint bind {A B} (f : A → Prog B) (p : Prog A) : Prog B :=
  match p with
  | Ret a => f a
  | Raise e => Raise e
  | Vis op k => Vis op (λ x, bind f (k x))
  end.

Global Instance Prog_ret : MRet Prog := @Ret.
Global Instance Prog_bind : MBind Prog := @bind.

(** [try: p except Exception as e: handler e].  An exception raised by the
    handler itself is not caught again. *)
Fixpoint try_except {A} (p : Prog A) (handler : exn → Prog A) : Prog A :=
  match p with
  | Ret a => Ret a
  | Raise e => handler e
  | Vis op k => Vis op (λ x, try_except (k x) handler)
  end.

(** The outcome of one iteration of a [for] loop whose body may [return]. *)
Inductive flow (S R : Type) : Type :=
  | Continue (s : S)
  | Return (r : R).
Arguments Continue {S R} s.
Arguments Return {S R} r.

(** [for x in xs: body], where [s] is the variable the body updates. *)
Fixpoint for_in {I S R} (xs : list I) (body : I → S → Prog (flow S R)) (s : S)
  : Prog (flow S R) :=
  match xs with
  | [] => Ret (Continue s)
  | x :: xs' =>
      c ← body x s;
      match c with
      | Continue s' => for_in xs' body s'
      | Return r => Ret (Return r)
      end
  end.

(** [for x in xs: body] for a body that only has effects. *)
Fixpoint for_each {I} (xs : list I) (body : I → Prog unit) : Prog unit :=
  match xs with
  | [] => Ret tt
  | x :: xs' => body x;; for_each xs' body
  end.

Definition path_exists (p : Path) : Prog bool := Vis (PathExists p) Ret.
Definition print (n : Notice) : Prog unit := Vis (Print n) Ret.

(** [gTTS(text, lang=language).save(path)] *)
Definition gTTS_save (text lang : str) (p : Path) : Prog unit :=
  Vis (GttsSave text lang p)
      (λ r, match r with Some e => Raise e | None => Ret tt end).

(** ** Collaborators *)

(** A page as [pdfplumber] offers it: its native text, which may be absent
    or empty, and its rendering [page.to_image().annotated]. *)
Record Page (Image : Type) : Type := mkPage {
  extract_text : option str;
  to_image_annotated : Image
}.
Arguments mkPage {Image} _ _.
Arguments extract_text {Image} _.
Arguments to_image_annotated {Image} _.

(** What the program uses and does not define. *)
Class Collaborators : Type := {
  (** [pathlib]: [folder / name], [path.stem] and [path.name]. *)
  path_div : Path → str → Path;
  path_stem : Path → str;
  path_name : Path → str;
  (** [md5(data).hexdigest()], on the UTF-8 encoding of a string. *)
  md5_hexdigest : str → str;
  (** The speech service.  [gtts n text lang] is what the [n]-th synthesis
      attempt made in this world (counted from 0) yields for [text] and
      [lang]: the audio data, which [save] writes to the destination, or the
      exception that [gTTS(...)] or [save] raises. *)
  gtts : nat → str → str → exn + bytes;
  (** What an attempt that fails leaves at the destination: nothing when it
      fails before [save] has opened the file, and otherwise what [save] had
      written when the exception was raised, which is empty when the first
      request fails and a part of the audio when a later one does. *)
  gtts_leaves : nat → str → str → option bytes;
  (** [time.sleep]: the exception raised for a duration that is not negative
      and that the platform cannot sleep (CPython raises [OverflowError]
      above 9223372036 seconds, the most whose nanoseconds fit 64 bits). *)
  sleep_refused : Z → option exn;
  (** [PIL]: the images, [image.mode], [image.convert(mode)],
      [image.save(buffer, format=...)] and [Image.open(buffer)]. *)
  Image : Type;
  image_mode : Image → str;
  image_convert : Image → str → Image;
  image_save : Image → str → bytes;
  Image_open : bytes → Image;
  (** [pytesseract.image_to_string(image, lang=...)] *)
  image_to_string : Image → str → str;
  (** [pdfplumber.open(path).pages], or the exception raised for a document
      that cannot be parsed. *)
  pdfplumber_open : Path → exn + list (Page Image)
}.

(** The same collaborators with another content-hash function. *)
Definition with_md5 (env : Collaborators) (digest : str → str) : Collaborators := {|
  path_div := path_div;
  path_stem := path_stem;
  path_name := path_name;
  md5_hexdigest := digest;
  gtts := gtts;
  gtts_leaves := gtts_leaves;
  sleep_refused := sleep_refused;
  Image := Image;
  image_mode := image_mode;
  image_convert := image_convert;
  image_save := image_save;
  Image_open := Image_open;
  image_to_string := image_to_string;
  pdfplumber_open := pdfplumber_open
|}.

(** ** Sample collaborators

    A small concrete world, used for the closed instances at the end of the
    file: three documents in the folder [in], a service in four moods. *)
Module Sample.

Definition div (folder : Path) (name : str) : Path := folder ++ lit "/" ++ name.

Definition stem (p : Path) : str :=
  if decide (p = lit "in/a.pdf") then lit "a"
  else if decide (p = lit "in/b.pdf") then lit "b"
  else if decide (p = lit "in/c.pdf") then lit "c"
  else p.

Definition name (p : Path) : str := stem p ++ lit ".pdf".

Definition digest (text : str) : str := lit "0cc175b9c0f1b6a831c399e269772661".

(** An image is its mode and what can be read on it. *)
Definition image : Type := str * str.

(** [a.pdf]: a page with text, then a scanned page.  [b.pdf]: white space
    only.  [c.pdf]: one page with text.  Anything else does not parse. *)
Definition open (p : Path) : exn + list (Page image) :=
  if decide (p = lit "in/a.pdf") then
    inr [mkPage (Some (lit "Hello ")) (lit "RGB", []);
         mkPage None (lit "RGBA", lit "world")]
  else if decide (p = lit "in/b.pdf") then
    inr [mkPage (Some [0x20; 0x0A; 0x3000]%N) (lit "RGB", [])]
  else if decide (p = lit "in/c.pdf") then
    inr [mkPage (Some (lit "Bye")) (lit "RGB", [])]
  else inl (OtherException (lit "PDFSyntaxError") (lit "No /Root object!")).

Definition too_many_requests : exn :=
  gTTSError (lit "429 (Too Many Requests) from TTS API. Probable cause: Unknown").
Definition forbidden : exn :=
  gTTSError (lit "403 (Forbidden) from TTS API. Probable cause: Bad token").

(** The service answers every attempt with audio data. *)
Definition served (n : nat) (text lang : str) : exn + bytes :=
  inr (lit "mp3:" ++ text).
(** The first [k] attempts are rate limited, the later ones served. *)
Definition limited_then_served (k : nat) (n : nat) (text lang : str) : exn + bytes :=
  if (n <? k)%nat then inl too_many_requests else inr (lit "mp3:" ++ text).
(** The first [k] attempts are rate limited, the later ones refused. *)
Definition limited_then_forbidden (k : nat) (n : nat) (text lang : str) : exn + bytes :=
  if (n <? k)%nat then inl too_many_requests else inl forbidden.
(** Every attempt is rate limited. *)
Definition always_limited (n : nat) (text lang : str) : exn + bytes :=
  inl too_many_requests.

(** [save] has opened the destination when the service refuses the
    request: an attempt that fails leaves an empty file. *)
Definition leaves (n : nat) (text lang : str) : option bytes := Some [].

(** [time.sleep] as CPython has it. *)
Definition refused (secs : Z) : option exn :=
  if 9223372036 <? secs
  then Some (OtherException (lit "OverflowError")
               (lit "timestamp too large to convert to C _PyTime_t"))
  else None.

Definition env (service : nat → str → str → exn + bytes) : Collaborators := {|
  path_div := div;
  path_stem := stem;
  path_name := name;
  md5_hexdigest := digest;
  gtts := service;
  gtts_leaves := leaves;
  sleep_refused := refused;
  Image := image;
  image_mode := fst;
  image_convert := λ im mode, (mode, im.2);
  image_save := λ im format, im.2;
  Image_open := λ data, (lit "RGB", data);
  image_to_string := λ im lang, im.2;
  pdfplumber_open := open
|}.

Definition fresh : World := mkWorld ∅ [] [] [].

(** A world in which the audio file of [a.pdf] exists already. *)
Definition with_audio : World :=
  mkWorld {[ lit "audio/a.mp3" := AudioFile (lit "old") ]} [] [] [].

End Sample.

(** A second sample folder: [ac.pdf] has the pages of [a.pdf] followed by
    those of [c.pdf]. *)
Module Sample2.

Definition open (p : Path) : exn + list (Page Sample.image) :=
  if decide (p = lit "in/ac.pdf") then
    inr [mkPage (Some (lit "Hello ")) (lit "RGB", []);
         mkPage None (lit "RGBA", lit "world");
         mkPage (Some (lit "Bye")) (lit "RGB", [])]
  else Sample.open p.

Definition env (service : nat → str → str → exn + bytes) : Collaborators := {|
  path_div := Sample.div;
  path_stem := Sample.stem;
  path_name := Sample.name;
  md5_hexdigest := Sample.digest;
  gtts := service;
  gtts_leaves := Sample.leaves;
  sleep_refused := Sample.refused;
  Image := Sample.image;
  image_mode := fst;
  image_convert := λ im mode, (mode, im.2);
  image_save := λ im format, im.2;
  Image_open := λ data, (lit "RGB", data);
  image_to_string := λ im lang, im.2;
  pdfplumber_open := open
|}.

End Sample2.

Section Program.

Context `{env : Collaborators}.
Local Infix "</>" := path_div (at level 40, left associativity).

(** *** Semantics of the events *)

Definition handle {X} (op : Eff X) (w : World) : X * World :=
  match op in Eff X return X * World with
  | PathExists p => (bool_decide (is_Some (files w !! p)), w)
  | WriteText p text => (tt, set_files <[p := TextFile text]> w)
  | GttsSave text lang p =>
      let n := length (tts_calls w) in
      let w' := log_tts_call (text, lang) w in
      match gtts n text lang with
      | inr data => (None, set_files <[p := AudioFile data]> w')
      | inl e =>
          (Some e,
           match gtts_leaves n text lang with
           | Some partial => set_files <[p := AudioFile partial]> w'
           | None => w'
           end)
      end
  | Sleep secs => (tt, log_sleep secs w)
  | Print n => (tt, log_notice n w)
  end.

(** Sequential execution. *)
Fixpoint run {A} (p : Prog A) (w : World) : (exn + A) * World :=
  match p with
  | Ret a => (inr a, w)
  | Raise e => (inl e, w)
  | Vis op k => let '(x, w') := handle op w in run (k x) w'
  end.

(** *** The functions of [main.py] *)

(** [time.sleep(secs)]: a negative argument raises [ValueError], one that
    is too large the exception of the platform. *)
Definition time_sleep (secs : Z) : Prog unit :=
  if secs <? 0 then Raise (ValueError (lit "sleep length must be non-negative"))
  else match sleep_refused secs with
       | Some e => Raise e
       | None => Vis (Sleep secs) Ret
       end.

Definition save_text_to_file (text : str) (output_file_path : Path) : Prog unit :=
  Vis (WriteText output_file_path text) Ret.

Definition generate_cache_key (text : str) : str := md5_hexdigest text.

Definition is_cached (cache_key : str) (folder_path : Path) : Prog bool :=
  path_exists (folder_path </> (cache_key ++ lit ".mp3")).

Definition RATE_LIMIT_MARKER : str := lit "429 (Too Many Requests)".

(** The body of the retry loop: one attempt.  The loop variable [attempt]
    is not used; the variable the body updates is [retry_delay]. *)
Definition attempt_body (text language : str) (audio_file_path : Path)
    (attempt : Z) (retry_delay : Z) : Prog (flow Z Path) :=
  try_except
    (gTTS_save text language audio_file_path;;
     Ret (Return audio_file_path))
    (λ e,
      match e with
      | gTTSError msg =>
          if contains RATE_LIMIT_MARKER msg then
            print (RateLimitHit retry_delay);;
            time_sleep retry_delay;;
            Ret (Continue (retry_delay * 2))
          else Raise e
      | _ => Raise e
      end).

(** The loop over the attempts, and the [raise] that follows it. *)
Definition retry_loop (text language : str) (audio_file_path : Path)
    (attempts : list Z) (retry_delay : Z) : Prog Path :=
  r ← for_in attempts (attempt_body text language audio_file_path) retry_delay;
  match r with
  | Return p => Ret p
  | Continue _ =>
      Raise (RuntimeError (lit "Failed to convert text to speech after retries"))
  end.

Definition convert_text_to_speech (text filename_without_extension : str)
    (cache_folder_path : Path) (language : str) (retry_delay max_retries : Z)
    : Prog Path :=
  let audio_file_path := cache_folder_path </> (filename_without_extension ++ lit ".mp3") in
  b ← path_exists audio_file_path;
  if b : bool then
    print (UsingExisting filename_without_extension);;
    Ret audio_file_path
  else
    retry_loop text language audio_file_path (range max_retries) retry_delay.

(** The [else] branch of the page loop: render, normalise to RGB, encode as
    JPEG, decode again, recognise with the English model. *)
Definition ocr_page (page : Page Image) : str :=
  let pil_image := to_image_annotated page in
  let pil_image :=
    if bool_decide (image_mode pil_image ≠ lit "RGB")
    then image_convert pil_image (lit "RGB")
    else pil_image in
  let image_bytes := image_save pil_image (lit "JPEG") in
  let pil_image := Image_open image_bytes in
  image_to_string pil_image (lit "eng").

(** One iteration of [for page in pdf.pages], on the accumulator [text]. *)
Definition page_step (text : str) (page : Page Image) : str :=
  match extract_text page with
  | Some page_text =>
      if truthy page_text then text ++ page_text else text ++ ocr_page page
  | None => text ++ ocr_page page
  end.

Definition extract_text_from_pdf_with_ocr (pdf_path : Path) : Prog str :=
  match pdfplumber_open pdf_path with
  | inl e => Raise e
  | inr pages => Ret (fold_left page_step pages [])
  end.

Definition process_pdf (pdf_path output_folder_path audio_folder_path : Path)
    (language : str) (retry_delay max_retries : Z) : Prog unit :=
  let filename_without_extension := path_stem pdf_path in
  text ← extract_text_from_pdf_with_ocr pdf_path;
  if negb (truthy (strip text)) then
    print (NoTextFound (path_name pdf_path))
  else
    let output_file_path := output_folder_path </> (filename_without_extension ++ lit ".txt") in
    save_text_to_file text output_file_path;;
    convert_text_to_speech text filename_without_extension audio_folder_path
                           language retry_delay max_retries;;
    print (Processed (path_name pdf_path)).

(** [main] with [--parallel] absent: the documents one after the other. *)
Definition main_sequential (pdf_files : list Path)
    (output_folder_path audio_folder_path : Path)
    (language : str) (retry_delay max_retries : Z) : Prog unit :=
  for_each pdf_files (λ pdf_path,
    process_pdf pdf_path output_folder_path audio_folder_path
                language retry_delay max_retries).

(** *** Notions used in the statements *)

(** The class of failures the loop retries: a [gTTSError] whose message
    carries the HTTP 429 marker. *)
Definition rate_limited (e : exn) : bool :=
  match e with
  | gTTSError msg => contains RATE_LIMIT_MARKER msg
  | _ => false
  end.

(** [time.sleep] sleeps for [secs] seconds. *)
Definition sleep_accepts (secs : Z) : Prop :=
  0 ≤ secs ∧ sleep_refused secs = None.

(** [time.sleep] sleeps for each of the first [k] delays of the sequence
    [d], [2 d], [4 d], ... *)
Definition sleeps_accepted (d : Z) (k : nat) : Prop :=
  ∀ i, (i < k)%nat → sleep_accepts (d * 2 ^ Z.of_nat i).

(** The world after [gTTS(text, lang).save(p)] was called in [w], whatever
    came of it. *)
Definition after_attempt (text lang : str) (p : Path) (w : World) : World :=
  (handle (GttsSave text lang p) w).2.

(** The world after one rate-limited attempt with current delay [d]. *)
Definition after_rate_limit (text lang : str) (p : Path) (d : Z) (w : World) : World :=
  log_sleep d (log_notice (RateLimitHit d) (after_attempt text lang p w)).

(** The world after [k] rate-limited attempts in a row, the first with
    delay [d]. *)
Fixpoint after_rate_limits (k : nat) (text lang : str) (p : Path) (d : Z)
    (w : World) : World :=
  match k with
  | O => w
  | S k' =>
      after_rate_limits k' text lang p (d * 2) (after_rate_limit text lang p d w)
  end.

(** A file such as the failed attempts of a call for [text] and [lang] leave
    at the destination: none, or what one of the attempts had written. *)
Definition left_by_failure (text lang : str) (f : option FileData) : Prop :=
  f = None ∨
  ∃ n e partial, gtts n text lang = inl e ∧
                 gtts_leaves n text lang = Some partial ∧
                 f = Some (AudioFile partial).

(** The delays slept: [d], [2 d], [4 d], ... *)
Definition backoff_delays (d : Z) (k : nat) : list Z :=
  (λ i, d * 2 ^ i) <$> seqZ 0 (Z.of_nat k).

(** The service answers the [k] attempts that follow the [base] attempts
    already made with a rate-limit failure. *)
Definition rate_limited_from (text lang : str) (base k : nat) : Prop :=
  ∀ i, (i < k)%nat →
    ∃ e, gtts (base + i) text lang = inl e ∧ rate_limited e = true.

(** The page loop in the words of the specification: the native text of a
    page (absent counts as empty), its rendering normalised to RGB, the OCR
    output for it, and the result of the page. *)
Definition native_text (page : Page Image) : str := default [] (extract_text page).

Definition rgb_rendering (page : Page Image) : Image :=
  if bool_decide (image_mode (to_image_annotated page) = lit "RGB")
  then to_image_annotated page
  else image_convert (to_image_annotated page) (lit "RGB").

Definition ocr_output (page : Page Image) : str :=
  image_to_string (Image_open (image_save (rgb_rendering page) (lit "JPEG")))
                  (lit "eng").

Definition page_result (page : Page Image) : str :=
  if bool_decide (native_text page ≠ []) then native_text page
  else ocr_output page.

(** The paths of the two outputs of a document. *)
Definition text_path (output_folder_path pdf_path : Path) : Path :=
  output_folder_path </> (path_stem pdf_path ++ lit ".txt").
Definition audio_path (audio_folder_path pdf_path : Path) : Path :=
  audio_folder_path </> (path_stem pdf_path ++ lit ".mp3").

(** *** The worker pool of [main] in parallel mode *)

(** One step of the pool: some worker performs the next event of its
    document.  Every interleaving of the events of the submitted calls is an
    execution; a pool of bounded size realises some of them. *)
Inductive pool_step :
    list (Prog unit) * World → list (Prog unit) * World → Prop :=
  | pool_step_event {X} pre (op : Eff X) k post w :
      pool_step (pre ++ Vis op k :: post, w)
                (pre ++ k (handle op w).1 :: post, (handle op w).2).

(** A call that has returned or raised. *)
Definition finished (p : Prog unit) : Prop :=
  match p with Vis _ _ => False | _ => True end.

(** [main] with [--parallel]: [process_pdf] is submitted for every document,
    and the block is left when every call has finished.  The relation holds
    of the initial world, the final state of the calls and the final world. *)
Definition main_parallel (pdf_files : list Path)
    (output_folder_path audio_folder_path : Path)
    (language : str) (retry_delay max_retries : Z)
    (w : World) (calls : list (Prog unit)) (w' : World) : Prop :=
  rtc pool_step
      ((λ pdf_path, process_pdf pdf_path output_folder_path audio_folder_path
                                language retry_delay max_retries) <$> pdf_files, w)
      (calls, w') ∧
  Forall finished calls.

(** One step of the worker at position [i], if it has an event to perform,
    and the execution of the pool along a list of positions. *)
Definition step_thread (st : list (Prog unit) * World) (i : nat)
    : list (Prog unit) * World :=
  match st.1 !! i with
  | Some (Vis op k) => (<[i := k (handle op st.2).1]> st.1, (handle op st.2).2)
  | _ => st
  end.

Definition run_schedule (schedule : list nat) (st : list (Prog unit) * World)
    : list (Prog unit) * World :=
  fold_left step_thread schedule st.

(** How a call that ran to its end shows in the pool. *)
Definition outcome {A} (r : exn + A) : Prog A :=
  match r with inl e => Raise e | inr a => Ret a end.

(** The schedule that runs the calls to their end one after the other. *)
Fixpoint run_each (ps : list (Prog unit)) (w : World) : list (Prog unit) * World :=
  match ps with
  | [] => ([], w)
  | p :: ps' =>
      let '(r, w1) := run p w in
      let '(ts, w2) := run_each ps' w1 in
      (outcome r :: ts, w2)
  end.

(** [wp T p Q E d]: started in a world whose set of files includes [d], and
    whatever files other workers add meanwhile, [p] creates files at paths of
    [T] only, and [Q] holds of its result and [E] of the exception it raises,
    for the set of files at that time. *)
Fixpoint wp {A : Type} (T : gset Path) (p : Prog A)
    (Q : A → gset Path → Prop) (E : exn → gset Path → Prop) (d : gset Path) : Prop :=
  match p with
  | Ret a => ∀ d', d ⊆ d' → Q a d'
  | Raise e => ∀ d', d ⊆ d' → E e d'
  | Vis op k =>
      ∀ w, d ⊆ dom (files w) →
        dom (files (handle op w).2) ⊆ dom (files w) ∪ T ∧
        wp T (k (handle op w).1) Q E (dom (files (handle op w).2))
  end.

(** The files [process_pdf] is to produce for a document: none when the
    document cannot be opened or has no text. *)
Definition targets (output_folder_path audio_folder_path pdf_path : Path) : gset Path :=
  match pdfplumber_open pdf_path with
  | inl _ => ∅
  | inr pages =>
      if truthy (strip (fold_left page_step pages []))
      then {[ text_path output_folder_path pdf_path;
              audio_path audio_folder_path pdf_path ]}
      else ∅
  end.

(** The state of the pool is consistent with the files present at the
    start, [D0], and the targets [Ts] of the calls. *)
Definition pool_inv (E : exn → gset Path → Prop) (D0 : gset Path)
    (Ts : list (gset Path)) (st : list (Prog unit) * World) : Prop :=
  D0 ⊆ dom (files st.2) ∧
  dom (files st.2) ⊆ D0 ∪ ⋃ Ts ∧
  Forall2 (λ T t, wp T t (λ _ d, T ⊆ d) E (dom (files st.2))) Ts st.1.

(** The time slept in total, in seconds. *)
Definition total_sleep (delays : list Z) : Z := foldr Z.add 0 delays.

(** [quiet p Q d]: started in a world whose set of files includes [d], and
    whatever files other workers add meanwhile, [p] makes no synthesis
    attempt and takes no sleep, does not raise, and [Q] holds of its result
    for the set of files at that time. *)
Fixpoint quiet {A : Type} (p : Prog A) (Q : A → gset Path → Prop)
    (d : gset Path) : Prop :=
  match p with
  | Ret a => ∀ d', d ⊆ d' → Q a d'
  | Raise _ => False
  | Vis op k =>
      ∀ w, d ⊆ dom (files w) →
        tts_calls (handle op w).2 = tts_calls w ∧
        sleeps (handle op w).2 = sleeps w ∧
        quiet (k (handle op w).1) Q (dom (files (handle op w).2))
  end.

(** The pool has made no synthesis attempt and taken no sleep since the
    world [w0], and none of its calls is going to. *)
Definition pool_quiet (w0 : World) (st : list (Prog unit) * World) : Prop :=
  tts_calls st.2 = tts_calls w0 ∧
  sleeps st.2 = sleeps w0 ∧
  Forall (λ t, quiet t (λ _ _, True) (dom (files st.2))) st.1.

(** [events_at_most n p]: whatever the answers to its events, [p] performs
    at most [n] of them. *)
Fixpoint events_at_most {A : Type} (n : nat) (p : Prog A) {struct p} : Prop :=
  match p with
  | Vis op k =>
      match n with
      | O => False
      | S n' => ∀ x, events_at_most n' (k x)
      end
  | _ => True
  end.

(** *** Basic facts *)

Lemma run_bind {A B} (p : Prog A) (f : A → Prog B) w :
  run (bind f p) w =
  match run p w with
  | (inr a, w') => run (f a) w'
  | (inl e, w') => (inl e, w')
  end.
Proof.
  revert w. induction p as [a|e|X op k IH]; intros w; try done.
  simpl. destruct (handle op w) as [x w']. apply IH.
Qed.

Ltac unfold_run_bind := unfold mbind, Prog_bind; rewrite !run_bind.



Lemma lstrip_nil s : lstrip s = [] ↔ forallb isspace s = true.
Proof.
  induction s as [|c s IH]; simpl; [done|].
  destruct (isspace c); simpl; [done|]. split; discriminate.
Qed.

Lemma lstrip_head s c s' : lstrip s = c :: s' → isspace c = false.
Proof.
  induction s as [|a s IH]; simpl; [done|].
  destruct (isspace a) eqn:Ha; [done|]. by intros [= <- _].
Qed.

Lemma forallb_isspace_reverse (s : str) :
  forallb isspace (reverse s) = forallb isspace s.
Proof.
  apply eq_true_iff_eq. rewrite !forallb_forall.
  split; intros H c Hc; apply H; apply list_elem_of_In;
    apply list_elem_of_In in Hc; by apply elem_of_reverse.
Qed.

(** [not text.strip()] holds exactly for the texts that are empty or made
    of whitespace only. *)
Lemma strip_blank s : strip s = [] ↔ forallb isspace s = true.
Proof.
  unfold strip, rstrip. split.
  - intros H. apply (f_equal reverse) in H.
    rewrite reverse_involutive in H. change (reverse []) with (@nil N) in H.
    apply lstrip_nil in H. rewrite forallb_isspace_reverse in H.
    destruct (lstrip s) as [|c s'] eqn:E; [by apply lstrip_nil|].
    apply lstrip_head in E. simpl in H. by rewrite E in H.
  - intros H. apply lstrip_nil in H. by rewrite H.
Qed.

(** *** One attempt of the retry loop *)

Lemma after_attempt_tts_calls text lang p w :
  tts_calls (after_attempt text lang p w) = tts_calls w ++ [(text, lang)].
Proof.
  unfold after_attempt. simpl.
  destruct (gtts _ _ _); [destruct (gtts_leaves _ _ _)|]; done.
Qed.

Lemma after_attempt_sleeps text lang p w :
  sleeps (after_attempt text lang p w) = sleeps w.
Proof.
  unfold after_attempt. simpl.
  destruct (gtts _ _ _); [destruct (gtts_leaves _ _ _)|]; done.
Qed.


Lemma after_attempt_frame text lang (p q : Path) w :
  q ≠ p → files (after_attempt text lang p w) !! q = files w !! q.
Proof.
  intros Hq. unfold after_attempt. simpl.
  destruct (gtts _ _ _); [destruct (gtts_leaves _ _ _)|]; simpl;
    by rewrite ?lookup_insert_ne.
Qed.

Lemma after_attempt_saved text lang p w data :
  gtts (length (tts_calls w)) text lang = inr data →
  after_attempt text lang p w =
  set_files <[p := AudioFile data]> (log_tts_call (text, lang) w).
Proof. intros H. unfold after_attempt. simpl. by rewrite H. Qed.

Lemma after_attempt_failed text lang (p : Path) w e :
  gtts (length (tts_calls w)) text lang = inl e →
  left_by_failure text lang (files w !! p) →
  left_by_failure text lang (files (after_attempt text lang p w) !! p).
Proof.
  intros H Hleft. unfold after_attempt. simpl. rewrite H.
  destruct (gtts_leaves _ _ _) as [partial|] eqn:Hl; simpl; [|done].
  right. exists (length (tts_calls w)), e, partial.
  by rewrite lookup_insert_eq.
Qed.

Lemma attempt_saved text lang p i d w data :
  gtts (length (tts_calls w)) text lang = inr data →
  run (attempt_body text lang p i d) w =
  (inr (Return p), set_files <[p := AudioFile data]> (log_tts_call (text, lang) w)).
Proof. intros H. unfold attempt_body. simpl. by rewrite H. Qed.

Lemma attempt_failed text lang p i d w e :
  gtts (length (tts_calls w)) text lang = inl e →
  run (attempt_body text lang p i d) w =
  run (match e with
       | gTTSError msg =>
           if contains RATE_LIMIT_MARKER msg then
             print (RateLimitHit d);; time_sleep d;; Ret (Continue (d * 2))
           else Raise e
       | _ => Raise e
       end) (after_attempt text lang p w).
Proof.
  intros H. unfold attempt_body, after_attempt. simpl. rewrite H. simpl.
  destruct e as [msg| | |]; try done.
Qed.

Lemma attempt_rate_limited text lang p i d w e :
  gtts (length (tts_calls w)) text lang = inl e →
  rate_limited e = true →
  sleep_accepts d →
  run (attempt_body text lang p i d) w =
  (inr (Continue (d * 2)), after_rate_limit text lang p d w).
Proof.
  intros H He [Hd Hs]. rewrite (attempt_failed _ _ _ _ _ _ e) by done.
  destruct e; try discriminate. simpl in He. rewrite He. simpl.
  unfold time_sleep. destruct (Z.ltb_spec d 0); [lia|]. by rewrite Hs.
Qed.

Lemma attempt_rate_limited_negative text lang p i d w e :
  gtts (length (tts_calls w)) text lang = inl e →
  rate_limited e = true →
  d < 0 →
  run (attempt_body text lang p i d) w =
  (inl (ValueError (lit "sleep length must be non-negative")),
   log_notice (RateLimitHit d) (after_attempt text lang p w)).
Proof.
  intros H He Hd. rewrite (attempt_failed _ _ _ _ _ _ e) by done.
  destruct e; try discriminate. simpl in He. rewrite He. simpl.
  unfold time_sleep. destruct (Z.ltb_spec d 0); [done|lia].
Qed.

Lemma attempt_rate_limited_refused text lang p i d w e e' :
  gtts (length (tts_calls w)) text lang = inl e →
  rate_limited e = true →
  0 ≤ d →
  sleep_refused d = Some e' →
  run (attempt_body text lang p i d) w =
  (inl e', log_notice (RateLimitHit d) (after_attempt text lang p w)).
Proof.
  intros H He Hd Hs. rewrite (attempt_failed _ _ _ _ _ _ e) by done.
  destruct e; try discriminate. simpl in He. rewrite He. simpl.
  unfold time_sleep. destruct (Z.ltb_spec d 0); [lia|]. by rewrite Hs.
Qed.

Lemma attempt_other_error text lang p i d w e :
  gtts (length (tts_calls w)) text lang = inl e →
  rate_limited e = false →
  run (attempt_body text lang p i d) w = (inl e, after_attempt text lang p w).
Proof.
  intros H He. rewrite (attempt_failed _ _ _ _ _ _ e) by done.
  destruct e; try done. simpl in He. by rewrite He.
Qed.

(** What one attempt comes to: the audio is saved and the call returns; or
    the attempt is rate limited, the sleep is taken and the loop goes on; or
    the attempt fails and an exception leaves the loop, without a sleep. *)
Lemma attempt_cases text lang p i d w :
  (∃ data, gtts (length (tts_calls w)) text lang = inr data ∧
           run (attempt_body text lang p i d) w =
           (inr (Return p),
            set_files <[p := AudioFile data]> (log_tts_call (text, lang) w))) ∨
  (∃ e, gtts (length (tts_calls w)) text lang = inl e ∧
        rate_limited e = true ∧ sleep_accepts d ∧
        run (attempt_body text lang p i d) w =
        (inr (Continue (d * 2)), after_rate_limit text lang p d w)) ∨
  (∃ e e' w1, gtts (length (tts_calls w)) text lang = inl e ∧
        ¬ (rate_limited e = true ∧ sleep_accepts d) ∧
        (rate_limited e = false → e' = e) ∧
        run (attempt_body text lang p i d) w = (inl e', w1) ∧
        files w1 = files (after_attempt text lang p w) ∧
        tts_calls w1 = tts_calls w ++ [(text, lang)] ∧
        sleeps w1 = sleeps w).
Proof.
  destruct (gtts (length (tts_calls w)) text lang) as [e|data] eqn:Hg.
  - right. destruct (rate_limited e) eqn:Hr.
    + destruct (Z.ltb_spec d 0) as [Hd|Hd].
      * right. exists e, (ValueError (lit "sleep length must be non-negative")),
          (log_notice (RateLimitHit d) (after_attempt text lang p w)).
        split; [done|].
        rewrite (attempt_rate_limited_negative _ _ _ _ _ _ e) by done.
        simpl. rewrite after_attempt_tts_calls, after_attempt_sleeps.
        split; [intros [_ [? _]]; lia|]. split; [congruence|]. done.
      * destruct (sleep_refused d) as [e'|] eqn:Hs.
        -- right. exists e, e',
             (log_notice (RateLimitHit d) (after_attempt text lang p w)).
           split; [done|].
           rewrite (attempt_rate_limited_refused _ _ _ _ _ _ e e') by done.
           simpl. rewrite after_attempt_tts_calls, after_attempt_sleeps.
           split; [intros [_ [_ ?]]; congruence|]. split; [congruence|]. done.
        -- left. exists e. split; [done|]. split; [done|].
           split; [done|]. by apply attempt_rate_limited with e.
    + right. exists e, e, (after_attempt text lang p w). split; [done|].
      rewrite (attempt_other_error _ _ _ _ _ _ e) by done.
      rewrite after_attempt_tts_calls, after_attempt_sleeps.
      split; [intros [? _]; congruence|]. done.
  - left. exists data. split; [done|]. by apply attempt_saved.
Qed.

Lemma retry_loop_nil text lang p d w :
  run (retry_loop text lang p [] d) w =
  (inl (RuntimeError (lit "Failed to convert text to speech after retries")), w).
Proof. done. Qed.

Lemma for_in_cons {I S R} (x : I) xs (body : I → S → Prog (flow S R)) s :
  for_in (x :: xs) body s =
  bind (λ c, match c with
             | Continue s' => for_in xs body s'
             | Return r => Ret (Return r)
             end) (body x s).
Proof. done. Qed.

Lemma retry_loop_cons text lang p i attempts d w :
  run (retry_loop text lang p (i :: attempts) d) w =
  match run (attempt_body text lang p i d) w with
  | (inr (Continue d'), w') => run (retry_loop text lang p attempts d') w'
  | (inr (Return r), w') => (inr r, w')
  | (inl e, w') => (inl e, w')
  end.
Proof.
  unfold retry_loop. rewrite for_in_cons. unfold_run_bind.
  destruct (run (attempt_body text lang p i d) w) as [[e|[d'|r]] w']; try done.
  by rewrite run_bind.
Qed.

Lemma after_rate_limits_frame k text lang (p q : Path) d w :
  q ≠ p → files (after_rate_limits k text lang p d w) !! q = files w !! q.
Proof.
  intros Hq. revert d w. induction k as [|k IH]; intros d w; simpl; [done|].
  rewrite IH. simpl. by apply after_attempt_frame.
Qed.

Lemma after_rate_limits_insert k text lang (p : Path) d w f :
  <[p := f]> (files (after_rate_limits k text lang p d w)) = <[p := f]> (files w).
Proof.
  apply map_eq. intros q. destruct (decide (p = q)) as [->|Hq].
  - by rewrite !lookup_insert_eq.
  - rewrite !lookup_insert_ne by done. by apply after_rate_limits_frame.
Qed.

Lemma after_rate_limits_tts_calls k text lang p d w :
  tts_calls (after_rate_limits k text lang p d w) =
  tts_calls w ++ replicate k (text, lang).
Proof.
  revert d w. induction k as [|k IH]; intros d w; simpl.
  - by rewrite app_nil_r.
  - rewrite IH. simpl. by rewrite after_attempt_tts_calls, <- app_assoc.
Qed.

Lemma backoff_delays_S d k :
  backoff_delays d (S k) = d :: backoff_delays (d * 2) k.
Proof.
  unfold backoff_delays. rewrite seqZ_cons by lia. simpl.
  rewrite Z.mul_1_r. f_equal.
  replace (Z.pred (Z.of_nat (S k))) with (Z.of_nat k) by lia.
  change (Z.succ 0) with (1 + 0). rewrite <- fmap_add_seqZ, <- list_fmap_compose.
  apply list_fmap_ext. intros j i Hi. apply lookup_seqZ in Hi as [-> _]. simpl.
  rewrite Z.pow_add_r by lia. lia.
Qed.

Lemma after_rate_limits_sleeps k text lang p d w :
  sleeps (after_rate_limits k text lang p d w) = sleeps w ++ backoff_delays d k.
Proof.
  revert d w. induction k as [|k IH]; intros d w.
  - simpl. by rewrite app_nil_r.
  - simpl after_rate_limits. rewrite IH, backoff_delays_S. simpl.
    by rewrite after_attempt_sleeps, <- app_assoc.
Qed.

Lemma sleeps_accepted_S d k :
  sleeps_accepted d (S k) → sleep_accepts d ∧ sleeps_accepted (d * 2) k.
Proof.
  intros H. split.
  - specialize (H 0%nat). simpl in H. rewrite Z.mul_1_r in H. apply H. lia.
  - intros i Hi. specialize (H (S i)).
    rewrite Nat2Z.inj_succ, Z.pow_succ_r in H by lia.
    replace (d * 2 * 2 ^ Z.of_nat i) with (d * (2 * 2 ^ Z.of_nat i)) by lia.
    apply H. lia.
Qed.

(** After rate-limited attempts only, the destination holds nothing or what
    one of them left. *)
Lemma after_rate_limits_dest k text lang (p : Path) d w :
  rate_limited_from text lang (length (tts_calls w)) k →
  left_by_failure text lang (files w !! p) →
  left_by_failure text lang (files (after_rate_limits k text lang p d w) !! p).
Proof.
  revert d w. induction k as [|k IH]; intros d w Hrl Hleft; [done|].
  simpl. apply IH.
  - intros i Hi. destruct (Hrl (S i)) as (e & He & Hr); [lia|].
    exists e. split; [|done]. simpl.
    rewrite after_attempt_tts_calls, length_app. simpl.
    by replace (length (tts_calls w) + 1 + i)%nat
      with (length (tts_calls w) + S i)%nat by lia.
  - simpl. destruct (Hrl 0%nat) as (e & He & _); [lia|].
    rewrite Nat.add_0_r in He. by apply after_attempt_failed with e.
Qed.

Lemma rate_limited_from_S text lang base k :
  rate_limited_from text lang base (S k) →
  (∃ e, gtts base text lang = inl e ∧ rate_limited e = true) ∧
  rate_limited_from text lang (S base) k.
Proof.
  intros H. split.
  - destruct (H 0%nat) as (e & He & Hr); [lia|].
    rewrite Nat.add_0_r in He. eauto.
  - intros i Hi. destruct (H (S i)) as (e & He & Hr); [lia|].
    rewrite Nat.add_succ_r in He. eauto.
Qed.

(** After [k] rate-limited attempts the loop is where it would have started
    with the remaining attempts and the delay doubled [k] times. *)
Lemma retry_loop_rate_limited_prefix text lang p pre rest d w :
  sleeps_accepted d (length pre) →
  rate_limited_from text lang (length (tts_calls w)) (length pre) →
  run (retry_loop text lang p (pre ++ rest) d) w =
  run (retry_loop text lang p rest (d * 2 ^ Z.of_nat (length pre)))
      (after_rate_limits (length pre) text lang p d w).
Proof.
  revert d w. induction pre as [|i pre IH]; intros d w Hd Hrl.
  - simpl. by rewrite Z.mul_1_r.
  - apply rate_limited_from_S in Hrl as [(e & He & Hr) Hrl].
    apply sleeps_accepted_S in Hd as [Hd Hds].
    rewrite <- app_comm_cons, retry_loop_cons.
    rewrite (attempt_rate_limited _ _ _ _ _ _ e) by done.
    rewrite IH.
    + simpl length. simpl after_rate_limits. f_equal. f_equal.
      rewrite Nat2Z.inj_succ, Z.pow_succ_r by lia. lia.
    + done.
    + simpl. by rewrite after_attempt_tts_calls, length_app, Nat.add_1_r.
Qed.

Lemma range_split (n : Z) (k : nat) :
  Z.of_nat k ≤ n →
  ∃ pre rest, range n = pre ++ rest ∧ length pre = k ∧
              length rest = (Z.to_nat n - k)%nat.
Proof.
  intros Hk. exists (take k (range n)), (drop k (range n)).
  rewrite take_drop, length_take, length_drop.
  unfold range. rewrite length_seqZ. repeat split; lia.
Qed.

Lemma convert_not_cached text filename folder lang d m w :
  files w !! path_div folder (filename ++ lit ".mp3") = None →
  run (convert_text_to_speech text filename folder lang d m) w =
  run (retry_loop text lang (path_div folder (filename ++ lit ".mp3")) (range m) d) w.
Proof.
  intros H. unfold convert_text_to_speech. simpl. rewrite H.
  rewrite bool_decide_eq_false_2; [done|]. by intros [? [=]].
Qed.

(** *** The speech synthesizer *)

Lemma convert_cached text filename folder lang d m w :
  is_Some (files w !! path_div folder (filename ++ lit ".mp3")) →
  run (convert_text_to_speech text filename folder lang d m) w =
  (inr (path_div folder (filename ++ lit ".mp3")),
   log_notice (UsingExisting filename) w).
Proof.
  intros H. unfold convert_text_to_speech. simpl.
  by rewrite bool_decide_eq_true_2.
Qed.

(** C9.  With [max_retries <= 0] and no file at the destination,
    [convert_text_to_speech] raises the terminal error at once: the world is
    left as it was, so no synthesis attempt was made and no sleep taken. *)
Theorem convert_no_retries_raises
    (text filename : str) (folder : Path) (lang : str) (d m : Z) (w : World) :
  m ≤ 0 →
  files w !! path_div folder (filename ++ lit ".mp3") = None →
  run (convert_text_to_speech text filename folder lang d m) w =
    (inl (RuntimeError (lit "Failed to convert text to speech after retries")), w).
Proof.
  intros Hm Hnone. rewrite convert_not_cached by done.
  unfold range. by rewrite seqZ_nil.
Qed.

(** C3, amended.  Let the destination not exist and [1 <= N <= max_retries],
    and let [time.sleep] accept the delays [retry_delay], [2 retry_delay],
    ..., [2 ^ (N - 2) retry_delay] (none of them negative, none beyond what
    the platform can sleep).  If the service answers the first [N - 1]
    attempts with a rate-limit failure and attempt [N] with audio data,
    [convert_text_to_speech] returns the output path after exactly [N]
    attempts, having slept these [N - 1] delays, each double the one
    before, and the audio data is in the file. *)
Theorem convert_succeeds_after_rate_limits
    (text filename : str) (folder : Path) (lang : str)
    (retry_delay max_retries : Z) (N : nat) (w : World) (data : bytes) :
  let path := path_div folder (filename ++ lit ".mp3") in
  files w !! path = None →
  (1 ≤ N)%nat →
  Z.of_nat N ≤ max_retries →
  sleeps_accepted retry_delay (N - 1) →
  rate_limited_from text lang (length (tts_calls w)) (N - 1) →
  gtts (length (tts_calls w) + (N - 1)) text lang = inr data →
  ∃ w',
    run (convert_text_to_speech text filename folder lang retry_delay max_retries) w
      = (inr path, w') ∧
    sleeps w' = sleeps w ++ backoff_delays retry_delay (N - 1) ∧
    tts_calls w' = tts_calls w ++ replicate N (text, lang) ∧
    files w' = <[path := AudioFile data]> (files w).
Proof.
  intros path Hnone HN Hmax Hd Hrl Hok.
  destruct (range_split max_retries (N - 1)) as (pre & rest & Hr & Hpre & Hrest); [lia|].
  destruct rest as [|i rest]; [simpl in Hrest; lia|].
  eexists. split.
  - rewrite convert_not_cached by done. fold path. rewrite Hr.
    rewrite retry_loop_rate_limited_prefix by (by rewrite ?Hpre).
    rewrite retry_loop_cons, Hpre.
    rewrite (attempt_saved _ _ _ _ _ _ data); [done|].
    by rewrite after_rate_limits_tts_calls, length_app, length_replicate.
  - simpl. rewrite after_rate_limits_sleeps, after_rate_limits_tts_calls,
      after_rate_limits_insert.
    repeat split; try done.
    rewrite <- app_assoc. f_equal.
    replace N with (S (N - 1)) at 2 by lia.
    by rewrite replicate_S_end.
Qed.

(** C4, amended.  Let the destination not exist, and let [time.sleep] accept
    the delays [retry_delay], [2 retry_delay], ... of the [max_retries]
    sleeps.  If the service answers every attempt with a rate-limit failure,
    [convert_text_to_speech] makes exactly [max_retries] attempts (none when
    [max_retries <= 0]), sleeping after each of them, and then raises the
    terminal [RuntimeError], which is none of the errors the service gave.
    No audio is saved: the files at other paths are as before, and the
    destination holds nothing or what a failed attempt left there. *)
Theorem convert_retry_exhaustion
    (text filename : str) (folder : Path) (lang : str)
    (retry_delay max_retries : Z) (w : World) :
  let path := path_div folder (filename ++ lit ".mp3") in
  let terminal := RuntimeError (lit "Failed to convert text to speech after retries") in
  files w !! path = None →
  sleeps_accepted retry_delay (Z.to_nat max_retries) →
  rate_limited_from text lang (length (tts_calls w)) (Z.to_nat max_retries) →
  ∃ w',
    run (convert_text_to_speech text filename folder lang retry_delay max_retries) w
      = (inl terminal, w') ∧
    tts_calls w' = tts_calls w ++ replicate (Z.to_nat max_retries) (text, lang) ∧
    sleeps w' = sleeps w ++ backoff_delays retry_delay (Z.to_nat max_retries) ∧
    (∀ q, q ≠ path → files w' !! q = files w !! q) ∧
    left_by_failure text lang (files w' !! path) ∧
    (∀ i, (i < Z.to_nat max_retries)%nat →
          gtts (length (tts_calls w) + i) text lang ≠ inl terminal).
Proof.
  intros path terminal Hnone Hd Hrl.
  assert (Hlen : length (range max_retries) = Z.to_nat max_retries)
    by apply length_seqZ.
  eexists. split; [|split; [|split; [|split; [|split]]]].
  - rewrite convert_not_cached by done. fold path.
    rewrite <- (app_nil_r (range max_retries)).
    rewrite retry_loop_rate_limited_prefix by (by rewrite ?Hlen).
    rewrite retry_loop_nil, Hlen. done.
  - apply after_rate_limits_tts_calls.
  - apply after_rate_limits_sleeps.
  - intros q Hq. by apply after_rate_limits_frame.
  - apply after_rate_limits_dest; [done|]. left. done.
  - intros i Hi Heq. destruct (Hrl i Hi) as (e & He & Hr).
    rewrite Heq in He. by injection He as <-.
Qed.

(** C5.  Let the destination not exist.  Whenever an attempt of
    [convert_text_to_speech] fails with an error that is not a rate-limit
    failure, that very error is raised: the sleeps taken are those that
    followed the attempts before it, the attempts made are those up to it,
    so that no sleep follows it and no further attempt is made, however many
    retries remain; no file at another path is changed, and the destination
    holds nothing or what a failed attempt left there.  The attempts of a
    call are the first one and those reached after [k] rate-limited
    attempts, each followed by a sleep that [time.sleep] accepted. *)
Theorem convert_other_error_propagates
    (text filename : str) (folder : Path) (lang : str)
    (retry_delay max_retries : Z) (k : nat) (w : World) (e : exn) :
  let path := path_div folder (filename ++ lit ".mp3") in
  files w !! path = None →
  Z.of_nat k < max_retries →
  sleeps_accepted retry_delay k →
  rate_limited_from text lang (length (tts_calls w)) k →
  gtts (length (tts_calls w) + k) text lang = inl e →
  rate_limited e = false →
  ∃ w',
    run (convert_text_to_speech text filename folder lang retry_delay max_retries) w
      = (inl e, w') ∧
    sleeps w' = sleeps w ++ backoff_delays retry_delay k ∧
    tts_calls w' = tts_calls w ++ replicate (S k) (text, lang) ∧
    (∀ q, q ≠ path → files w' !! q = files w !! q) ∧
    left_by_failure text lang (files w' !! path).
Proof.
  intros path Hnone Hk Hd Hrl He Hnr.
  destruct (range_split max_retries k) as (pre & rest & Hr & Hpre & Hrest); [lia|].
  destruct rest as [|i rest]; [simpl in Hrest; lia|].
  set (w_k := after_rate_limits k text lang path retry_delay w).
  assert (Hcalls : tts_calls w_k = tts_calls w ++ replicate k (text, lang))
    by apply after_rate_limits_tts_calls.
  assert (Hek : gtts (length (tts_calls w_k)) text lang = inl e)
    by (by rewrite Hcalls, length_app, length_replicate).
  exists (after_attempt text lang path w_k). split; [|split; [|split; [|split]]].
  - rewrite convert_not_cached by done. fold path. rewrite Hr.
    rewrite retry_loop_rate_limited_prefix by (by rewrite ?Hpre).
    rewrite Hpre. fold w_k. rewrite retry_loop_cons.
    by rewrite (attempt_other_error _ _ _ _ _ _ e).
  - rewrite after_attempt_sleeps. apply after_rate_limits_sleeps.
  - rewrite after_attempt_tts_calls, Hcalls, <- app_assoc. f_equal.
    by rewrite replicate_S_end.
  - intros q Hq. rewrite after_attempt_frame by done.
    by apply after_rate_limits_frame.
  - apply after_attempt_failed with e; [done|].
    apply after_rate_limits_dest; [done|]. by left.
Qed.

(** *** Files only accumulate *)

Lemma handle_files_mono {X} (op : Eff X) w :
  dom (files w) ⊆ dom (files (handle op w).2).
Proof.
  destruct op; simpl; try done.
  - rewrite dom_insert. set_solver.
  - destruct (gtts _ _ _); [destruct (gtts_leaves _ _ _)|]; simpl;
      rewrite ?dom_insert; set_solver.
Qed.

Lemma run_files_mono {A} (p : Prog A) w :
  dom (files w) ⊆ dom (files (run p w).2).
Proof.
  revert w. induction p as [a|e|X op k IH]; intros w; try done.
  simpl. pose proof (handle_files_mono op w) as Hop.
  destruct (handle op w) as [x w']. etrans; [apply Hop|apply IH].
Qed.

(** A call of the retry loop that raises has saved no audio: the
    destination holds what it held, or what a failed attempt left. *)
Lemma retry_loop_raise_dest text lang (p : Path) attempts d w e w' :
  left_by_failure text lang (files w !! p) →
  run (retry_loop text lang p attempts d) w = (inl e, w') →
  left_by_failure text lang (files w' !! p).
Proof.
  revert d w. induction attempts as [|i attempts IH]; intros d w Hleft.
  - rewrite retry_loop_nil. by intros [= _ <-].
  - rewrite retry_loop_cons.
    destruct (attempt_cases text lang p i d w)
      as [(data & Hg & ->)|[(e0 & Hg & Hr & Hd & ->)|
          (e0 & e' & w1 & Hg & _ & _ & -> & Hf & _)]].
    + done.
    + apply IH. simpl. by apply after_attempt_failed with e0.
    + intros [= _ <-]. rewrite Hf. by apply after_attempt_failed with e0.
Qed.

(** A call of [convert_text_to_speech] that raises found no file at the
    destination and has saved no audio there. *)
Lemma convert_raise_dest text filename folder lang d m w e w' :
  run (convert_text_to_speech text filename folder lang d m) w = (inl e, w') →
  files w !! path_div folder (filename ++ lit ".mp3") = None ∧
  left_by_failure text lang (files w' !! path_div folder (filename ++ lit ".mp3")).
Proof.
  intros H.
  destruct (files w !! path_div folder (filename ++ lit ".mp3")) as [f|] eqn:Hf.
  - rewrite convert_cached in H by (by rewrite Hf). done.
  - split; [done|]. rewrite convert_not_cached in H by done.
    apply retry_loop_raise_dest in H; [done|]. left. done.
Qed.

(** A call of [convert_text_to_speech] that returns leaves a file at the
    destination. *)
Lemma retry_loop_return_files text lang p attempts d w r w' :
  run (retry_loop text lang p attempts d) w = (inr r, w') →
  r = p ∧ is_Some (files w' !! p).
Proof.
  revert d w. induction attempts as [|i attempts IH]; intros d w.
  - by rewrite retry_loop_nil.
  - rewrite retry_loop_cons.
    destruct (attempt_cases text lang p i d w)
      as [(data & Hg & ->)|[(e0 & Hg & Hr & Hd & ->)|
          (e0 & e' & w1 & Hg & _ & _ & -> & _)]].
    + intros [= <- <-]. split; [done|]. simpl. by rewrite lookup_insert_eq.
    + apply IH.
    + done.
Qed.

Lemma convert_return_files text filename folder lang d m w r w' :
  run (convert_text_to_speech text filename folder lang d m) w = (inr r, w') →
  r = path_div folder (filename ++ lit ".mp3") ∧ is_Some (files w' !! r).
Proof.
  intros H.
  destruct (files w !! path_div folder (filename ++ lit ".mp3")) as [f|] eqn:Hf.
  - rewrite convert_cached in H by (by rewrite Hf).
    injection H as <- <-. simpl. by rewrite Hf.
  - rewrite convert_not_cached in H by done.
    apply retry_loop_return_files in H as [-> H]. done.
Qed.

(** What a call of the retry loop leaves in the logs and on disk. *)
Lemma retry_loop_outcome text lang (p : Path) attempts d w r w' :
  run (retry_loop text lang p attempts d) w = (r, w') →
  ∃ n k : nat,
    (n ≤ length attempts)%nat ∧
    tts_calls w' = tts_calls w ++ replicate n (text, lang) ∧
    sleeps w' = sleeps w ++ backoff_delays d k ∧
    ((k = n ∧ n = length attempts ∧
      r = inl (RuntimeError (lit "Failed to convert text to speech after retries")))
     ∨ n = S k) ∧
    (∀ q, q ≠ p → files w' !! q = files w !! q).
Proof.
  revert d w. induction attempts as [|i attempts IH]; intros d w.
  - rewrite retry_loop_nil. intros [= <- <-]. exists 0%nat, 0%nat. simpl.
    rewrite !app_nil_r. repeat split; auto.
  - rewrite retry_loop_cons.
    destruct (attempt_cases text lang p i d w)
      as [(data & Hg & ->)|[(e0 & Hg & Hr & Hd & ->)|
          (e0 & e' & w1 & Hg & _ & _ & -> & Hf & Hc & Hs)]].
    + intros [= <- <-]. exists 1%nat, 0%nat. simpl. rewrite app_nil_r.
      repeat split; auto; [lia|]. intros q Hq. by rewrite lookup_insert_ne.
    + intros H'. apply IH in H' as (n & k & Hn & Hc & Hs & Hnk & Hf).
      exists (S n), (S k). simpl in *.
      rewrite Hc, Hs, after_attempt_tts_calls, after_attempt_sleeps,
        backoff_delays_S, <- !app_assoc. simpl.
      split; [lia|]. split; [done|]. split; [done|]. split.
      * destruct Hnk as [(-> & -> & ->) | ->]; [left|right]; done.
      * intros q Hq. rewrite Hf by done. by apply after_attempt_frame.
    + intros [= <- <-]. exists 1%nat, 0%nat. simpl. rewrite app_nil_r.
      split; [lia|]. split; [done|]. split; [done|]. split; [by right|].
      intros q Hq. rewrite Hf. by apply after_attempt_frame.
Qed.

Lemma convert_frame text filename folder lang d m w r w' :
  run (convert_text_to_speech text filename folder lang d m) w = (r, w') →
  ∀ q, q ≠ path_div folder (filename ++ lit ".mp3") →
       files w' !! q = files w !! q.
Proof.
  intros Hrun.
  destruct (files w !! path_div folder (filename ++ lit ".mp3")) as [f|] eqn:Hf.
  - rewrite convert_cached in Hrun by (by rewrite Hf). by injection Hrun as <- <-.
  - rewrite convert_not_cached in Hrun by done.
    by apply retry_loop_outcome in Hrun as (n & k & _ & _ & _ & _ & Hq).
Qed.

(** *** The text extractor *)

Lemma page_step_result text page :
  page_step text page = text ++ page_result page.
Proof.
  unfold page_step, page_result, native_text, ocr_output, ocr_page, rgb_rendering.
  destruct (extract_text page) as [[|c t]|]; simpl; try done.
  - by destruct (decide (image_mode (to_image_annotated page) = lit "RGB"));
      [rewrite bool_decide_eq_false_2, bool_decide_eq_true_2 by (done || by intros []) |
       rewrite bool_decide_eq_true_2, bool_decide_eq_false_2 by done].
  - by destruct (decide (image_mode (to_image_annotated page) = lit "RGB"));
      [rewrite bool_decide_eq_false_2, bool_decide_eq_true_2 by (done || by intros []) |
       rewrite bool_decide_eq_true_2, bool_decide_eq_false_2 by done].
Qed.

Lemma fold_page_step pages text :
  fold_left page_step pages text = text ++ concat (page_result <$> pages).
Proof.
  revert text. induction pages as [|page pages IH]; intros text; simpl.
  - by rewrite app_nil_r.
  - by rewrite IH, page_step_result, <- app_assoc.
Qed.

(** C6.  [extract_text_from_pdf_with_ocr] returns the results of the pages
    concatenated in page order with nothing in between, where the result of
    a page is its native text when that is not empty, and otherwise the OCR
    output, with the English model, for the rendering of the page normalised
    to RGB (and passed through a JPEG encoding); the world is not changed.
    For two pages of which the first has text and the second has none, the
    result is the text of the first followed by the OCR output of the
    second.  The rendering handed on has mode RGB as soon as [convert]
    yields the mode it is asked for. *)
Theorem extract_concatenates_page_results
    (pdf_path : Path) (pages : list (Page Image)) (w : World) :
  (∀ im m, image_mode (image_convert im m) = m) →
  pdfplumber_open pdf_path = inr pages →
  run (extract_text_from_pdf_with_ocr pdf_path) w
    = (inr (concat (page_result <$> pages)), w) ∧
  (∀ page, image_mode (rgb_rendering page) = lit "RGB") ∧
  (∀ page, page_result page =
     match extract_text page with
     | Some (c :: t) => c :: t
     | _ => image_to_string
              (Image_open (image_save (rgb_rendering page) (lit "JPEG"))) (lit "eng")
     end) ∧
  (∀ page1 page2 text1,
     pages = [page1; page2] →
     extract_text page1 = Some text1 → text1 ≠ [] →
     extract_text page2 = None ∨ extract_text page2 = Some [] →
     run (extract_text_from_pdf_with_ocr pdf_path) w
       = (inr (text1 ++ ocr_output page2), w)).
Proof.
  intros Hconv Hopen.
  assert (Hrun : run (extract_text_from_pdf_with_ocr pdf_path) w
                 = (inr (concat (page_result <$> pages)), w)).
  { unfold extract_text_from_pdf_with_ocr. rewrite Hopen. simpl.
    by rewrite fold_page_step. }
  split; [done|]. split; [|split].
  - intros page. unfold rgb_rendering. case_bool_decide; [done|apply Hconv].
  - intros page. unfold page_result, native_text, ocr_output.
    by destruct (extract_text page) as [[|c t]|].
  - intros page1 page2 text1 -> H1 Hne H2. rewrite Hrun. simpl.
    unfold page_result at 1 2, native_text. rewrite H1. simpl.
    rewrite bool_decide_eq_true_2 by done.
    destruct H2 as [-> | ->]; simpl; by rewrite app_nil_r.
Qed.

(** *** The document processor *)

Lemma process_pdf_blank pdf out audio lang d m text w :
  extract_text_from_pdf_with_ocr pdf = Ret text →
  strip text = [] →
  run (process_pdf pdf out audio lang d m) w =
  (inr (), log_notice (NoTextFound (path_name pdf)) w).
Proof. intros Hx Hs. unfold process_pdf. rewrite Hx. simpl. by rewrite Hs. Qed.

Lemma process_pdf_text pdf out audio lang d m text w :
  extract_text_from_pdf_with_ocr pdf = Ret text →
  strip text ≠ [] →
  run (process_pdf pdf out audio lang d m) w =
  match run (convert_text_to_speech text (path_stem pdf) audio lang d m)
            (set_files <[text_path out pdf := TextFile text]> w) with
  | (inr _, w') => (inr (), log_notice (Processed (path_name pdf)) w')
  | (inl e, w') => (inl e, w')
  end.
Proof.
  intros Hx Hs. unfold process_pdf. rewrite Hx.
  change (Ret text ≫= ?f) with (f text). cbv beta.
  destruct (strip text) as [|c s] eqn:E; [done|]. simpl negb. cbv iota.
  unfold save_text_to_file.
  change (Vis ?op Ret ≫= ?f) with (Vis op f).
  change (run (Vis ?op ?k) w) with (run (k (handle op w).1) (handle op w).2).
  simpl handle. cbv beta. unfold_run_bind. fold (text_path out pdf).
  by destruct (run _ _) as [[e|r] w'].
Qed.

(** C1.  For a document whose extracted text is empty or whitespace only,
    [process_pdf] returns having printed the skip notice and nothing else:
    the files are as before (no text file, no audio file), no synthesis
    attempt is made and no sleep taken. *)
Theorem process_pdf_blank_creates_nothing
    (pdf out audio : Path) (lang : str) (d m : Z) (text : str) (w : World) :
  extract_text_from_pdf_with_ocr pdf = Ret text →
  forallb isspace text = true →
  ∃ w',
    run (process_pdf pdf out audio lang d m) w = (inr (), w') ∧
    w' = log_notice (NoTextFound (path_name pdf)) w ∧
    files w' = files w ∧
    tts_calls w' = tts_calls w ∧
    sleeps w' = sleeps w.
Proof.
  intros Hx Hb. apply strip_blank in Hb. eexists. split; [|done].
  by apply process_pdf_blank with text.
Qed.

(** *** The batch, one document after the other *)

Lemma main_sequential_cons pdf pdfs out audio lang d m w :
  run (main_sequential (pdf :: pdfs) out audio lang d m) w =
  match run (process_pdf pdf out audio lang d m) w with
  | (inr _, w') => run (main_sequential pdfs out audio lang d m) w'
  | (inl e, w') => (inl e, w')
  end.
Proof. unfold main_sequential. simpl for_each. by unfold_run_bind. Qed.

Lemma extract_cases pdf :
  (∃ e, extract_text_from_pdf_with_ocr pdf = Raise e) ∨
  (∃ text, extract_text_from_pdf_with_ocr pdf = Ret text).
Proof.
  unfold extract_text_from_pdf_with_ocr.
  destruct (pdfplumber_open pdf); eauto.
Qed.

(** A document whose audio file exists is processed without a synthesis
    attempt and without a sleep, and the call returns. *)
Lemma process_pdf_cached pdf out audio lang d m text w :
  extract_text_from_pdf_with_ocr pdf = Ret text →
  strip text = [] ∨ is_Some (files w !! audio_path audio pdf) →
  ∃ w', run (process_pdf pdf out audio lang d m) w = (inr (), w') ∧
        tts_calls w' = tts_calls w ∧ sleeps w' = sleeps w.
Proof.
  intros Hx Hc. destruct (decide (strip text = [])) as [Hs|Hs].
  { eexists. split; [by apply process_pdf_blank with text|done]. }
  destruct Hc as [?|Hc]; [done|].
  eexists. rewrite (process_pdf_text _ _ _ _ _ _ text) by done.
  set (w1 := set_files _ w).
  rewrite convert_cached; [done|].
  simpl. destruct Hc as [f Hf]. fold (audio_path audio pdf).
  destruct (decide (text_path out pdf = audio_path audio pdf)) as [->|Hne].
  - by rewrite lookup_insert_eq.
  - by rewrite lookup_insert_ne, Hf.
Qed.

(** C10.  For a document with non-empty extracted text, when [process_pdf]
    raises, the exception is the one raised by [convert_text_to_speech],
    which was called in the world where the text file had been written and
    found no file at the audio path; in the final world the text file holds
    the text, the audio path holds nothing or what a failed attempt left
    there, and every other file is as it was.  When a failed attempt has
    left a file, a later call for the document makes no attempt: it takes
    the file for the audio. *)
Theorem process_pdf_text_file_survives_failure
    (pdf out audio : Path) (lang : str) (d m : Z) (text : str)
    (w : World) (e : exn) (w' : World) :
  extract_text_from_pdf_with_ocr pdf = Ret text →
  text ≠ [] →
  run (process_pdf pdf out audio lang d m) w = (inl e, w') →
  let w1 := set_files <[text_path out pdf := TextFile text]> w in
  run (convert_text_to_speech text (path_stem pdf) audio lang d m) w1 = (inl e, w') ∧
  files w1 !! audio_path audio pdf = None ∧
  files w' !! text_path out pdf = Some (TextFile text) ∧
  left_by_failure text lang (files w' !! audio_path audio pdf) ∧
  (∀ q, q ≠ text_path out pdf → q ≠ audio_path audio pdf →
        files w' !! q = files w !! q) ∧
  (is_Some (files w' !! audio_path audio pdf) →
   ∀ lang' d' m', ∃ w'',
     run (process_pdf pdf out audio lang' d' m') w' = (inr (), w'') ∧
     tts_calls w'' = tts_calls w' ∧ sleeps w'' = sleeps w').
Proof.
  intros Hx _ Hrun w1.
  destruct (decide (strip text = [])) as [Hs|Hs].
  { by rewrite (process_pdf_blank _ _ _ _ _ _ text) in Hrun. }
  rewrite (process_pdf_text _ _ _ _ _ _ text) in Hrun by done. fold w1 in Hrun.
  destruct (run (convert_text_to_speech _ _ _ _ _ _) w1) as [[e'|r] w''] eqn:Hc;
    [|done].
  injection Hrun as -> ->.
  pose proof (convert_frame _ _ _ _ _ _ _ _ _ Hc) as Hframe.
  apply convert_raise_dest in Hc as [Hnone Hleft].
  fold (audio_path audio pdf) in Hnone, Hleft, Hframe.
  assert (text_path out pdf ≠ audio_path audio pdf) as Hne.
  { intros Heq. rewrite <- Heq in Hnone. subst w1. simpl in Hnone.
    by rewrite lookup_insert_eq in Hnone. }
  split; [done|]. split; [done|]. split; [|split; [done|split]].
  - rewrite Hframe by done. subst w1. simpl. by rewrite lookup_insert_eq.
  - intros q Hq1 Hq2. rewrite Hframe by done. subst w1. simpl.
    by rewrite lookup_insert_ne.
  - intros Hsome lang' d' m'. apply process_pdf_cached with text; auto.
Qed.

(** When [process_pdf] returns, the document has no text to speak or its
    audio file exists. *)
Lemma process_pdf_returned pdf out audio lang d m w w' :
  run (process_pdf pdf out audio lang d m) w = (inr (), w') →
  ∃ text, extract_text_from_pdf_with_ocr pdf = Ret text ∧
          (strip text = [] ∨ is_Some (files w' !! audio_path audio pdf)).
Proof.
  intros Hrun. destruct (extract_cases pdf) as [[e Hx]|[text Hx]].
  { unfold process_pdf in Hrun. by rewrite Hx in Hrun. }
  exists text. split; [done|].
  destruct (decide (strip text = [])) as [Hs|Hs]; [by left|right].
  rewrite (process_pdf_text _ _ _ _ _ _ text) in Hrun by done.
  destruct (run (convert_text_to_speech _ _ _ _ _ _) _) as [[e|r] w''] eqn:Hc; [done|].
  injection Hrun as <-. by apply convert_return_files in Hc as [-> ?].
Qed.

Lemma main_sequential_returned pdfs out audio lang d m w w' :
  run (main_sequential pdfs out audio lang d m) w = (inr (), w') →
  Forall (λ pdf, ∃ text, extract_text_from_pdf_with_ocr pdf = Ret text ∧
                   (strip text = [] ∨ is_Some (files w' !! audio_path audio pdf)))
         pdfs.
Proof.
  revert w. induction pdfs as [|pdf pdfs IH]; intros w Hrun; [done|].
  rewrite main_sequential_cons in Hrun.
  destruct (run (process_pdf pdf out audio lang d m) w) as [[e|[]] w1] eqn:Hp; [done|].
  constructor; [|by eapply IH].
  apply process_pdf_returned in Hp as (text & Hx & Hc).
  exists text. split; [done|]. destruct Hc as [?|Hc]; [by left|right].
  pose proof (run_files_mono (main_sequential pdfs out audio lang d m) w1) as Hmono.
  rewrite Hrun in Hmono. simpl in Hmono.
  apply elem_of_dom. apply elem_of_dom in Hc. by apply Hmono.
Qed.

Lemma main_sequential_cached pdfs out audio lang d m w :
  Forall (λ pdf, ∃ text, extract_text_from_pdf_with_ocr pdf = Ret text ∧
                   (strip text = [] ∨ is_Some (files w !! audio_path audio pdf)))
         pdfs →
  ∃ w', run (main_sequential pdfs out audio lang d m) w = (inr (), w') ∧
        tts_calls w' = tts_calls w ∧ sleeps w' = sleeps w.
Proof.
  revert w. induction pdfs as [|pdf pdfs IH]; intros w Hall.
  { by exists w. }
  apply Forall_cons in Hall as [(text & Hx & Hc) Hall].
  destruct (process_pdf_cached pdf out audio lang d m text w Hx Hc)
    as (w1 & Hp & Hcalls & Hsleeps).
  destruct (IH w1) as (w' & Hrun & Hcalls' & Hsleeps').
  { eapply Forall_impl; [apply Hall|]. intros pdf' (text' & Hx' & Hc').
    exists text'. split; [done|]. destruct Hc' as [?|Hc']; [by left|right].
    pose proof (run_files_mono (process_pdf pdf out audio lang d m) w) as Hmono.
    rewrite Hp in Hmono. simpl in Hmono.
    apply elem_of_dom. apply elem_of_dom in Hc'. by apply Hmono. }
  exists w'. rewrite main_sequential_cons, Hp. split; [done|]. split; congruence.
Qed.

(** C7.  When a run of the batch has completed, a second run over the same
    documents with the same audio folder (whatever its other settings)
    completes too and makes no synthesis attempt and takes no sleep.  More
    generally a document whose extraction succeeds and whose audio file
    exists is processed, in any world, without a synthesis attempt, and the
    call of [convert_text_to_speech] made for it returns the path of the
    existing file. *)
Theorem second_run_makes_no_synthesis_call
    (pdfs : list Path) (out audio : Path) (lang : str) (d m : Z)
    (out' : Path) (lang' : str) (d' m' : Z) (w0 w1 : World) :
  run (main_sequential pdfs out audio lang d m) w0 = (inr (), w1) →
  (∃ w2, run (main_sequential pdfs out' audio lang' d' m') w1 = (inr (), w2) ∧
         tts_calls w2 = tts_calls w1 ∧ sleeps w2 = sleeps w1) ∧
  (∀ pdf text w,
     extract_text_from_pdf_with_ocr pdf = Ret text →
     is_Some (files w !! audio_path audio pdf) →
     (∃ w', run (process_pdf pdf out' audio lang' d' m') w = (inr (), w') ∧
            tts_calls w' = tts_calls w ∧ sleeps w' = sleeps w) ∧
     run (convert_text_to_speech text (path_stem pdf) audio lang' d' m') w =
       (inr (audio_path audio pdf), log_notice (UsingExisting (path_stem pdf)) w)).
Proof.
  intros Hfirst. split.
  - apply main_sequential_cached. by eapply main_sequential_returned.
  - intros pdf text w Hx Hc. split.
    + apply process_pdf_cached with text; auto.
    + by apply convert_cached.
Qed.

(** *** Files created by a call, whatever the other workers do *)

Lemma wp_mono {A : Type} (T : gset Path) (p : Prog A) Q E d d' :
  d ⊆ d' → wp T p Q E d → wp T p Q E d'.
Proof.
  revert d d'. induction p as [a|e|X op k IH]; simpl; intros d d' Hd H.
  - intros d'' Hd'. apply H. by etrans.
  - intros d'' Hd'. apply H. by etrans.
  - intros w Hw. apply H. by etrans.
Qed.

Lemma wp_conseq {A : Type} (T T' : gset Path) (p : Prog A) (Q Q' : A → gset Path → Prop)
    (E E' : exn → gset Path → Prop) d :
  T ⊆ T' →
  (∀ a d', d ⊆ d' → Q a d' → Q' a d') →
  (∀ e d', d ⊆ d' → E e d' → E' e d') →
  wp T p Q E d → wp T' p Q' E' d.
Proof.
  intros HT. revert d. induction p as [a|e|X op k IH]; simpl; intros d HQ HE H.
  - intros d' Hd. by apply HQ, H.
  - intros d' Hd. by apply HE, H.
  - intros w Hw. destruct (H w Hw) as [H1 H2]. split; [set_solver|].
    pose proof (handle_files_mono op w) as Hmono.
    apply IH; [| |done].
    + intros a d' Hd'. apply HQ. by repeat (etrans; [eassumption|]).
    + intros e d' Hd'. apply HE. by repeat (etrans; [eassumption|]).
Qed.

Lemma wp_frame {A : Type} (T : gset Path) (p : Prog A) Q E d :
  wp T p Q E d → wp T p (λ a d', Q a d' ∧ d ⊆ d') E d.
Proof.
  intros H. cut (∀ d0, d0 ⊆ d → wp T p (λ a d', Q a d' ∧ d0 ⊆ d') E d).
  { intros Hc. by apply Hc. }
  revert d H. induction p as [a|e|X op k IH]; simpl; intros d H d0 Hd0.
  - intros d' Hd. split; [by apply H|by etrans].
  - done.
  - intros w Hw. destruct (H w Hw) as [H1 H2]. split; [done|].
    apply IH; [done|]. etrans; [apply Hd0|]. etrans; [apply Hw|].
    apply handle_files_mono.
Qed.

Lemma wp_bind {A B : Type} (T : gset Path) (p : Prog A) (f : A → Prog B) Q E d :
  wp T p (λ a d', wp T (f a) Q E d') E d → wp T (bind f p) Q E d.
Proof.
  revert d. induction p as [a|e|X op k IH]; simpl; intros d H.
  - by apply H.
  - done.
  - intros w Hw. destruct (H w Hw) as [H1 H2]. split; [done|]. by apply IH.
Qed.

Lemma wp_try_except {A : Type} (T : gset Path) (p : Prog A) handler Q E d :
  wp T p Q (λ e d', wp T (handler e) Q E d') d →
  wp T (try_except p handler) Q E d.
Proof.
  revert d. induction p as [a|e|X op k IH]; simpl; intros d H.
  - done.
  - by apply H.
  - intros w Hw. destruct (H w Hw) as [H1 H2]. split; [done|]. by apply IH.
Qed.

Lemma wp_path_exists (T : gset Path) (p : Path) (Q : bool → gset Path → Prop) E d :
  (∀ b d', d ⊆ d' → (b = true → p ∈ d') → Q b d') →
  wp T (path_exists p) Q E d.
Proof.
  intros H w Hw. simpl. split; [set_solver|]. intros d' Hd'.
  apply H; [by etrans|]. intros Hb%bool_decide_eq_true.
  apply Hd'. by apply elem_of_dom.
Qed.

Lemma wp_print (T : gset Path) n (Q : unit → gset Path → Prop) E d :
  (∀ d', d ⊆ d' → Q () d') → wp T (print n) Q E d.
Proof.
  intros H w Hw. simpl. split; [set_solver|]. intros d' Hd'. apply H. by etrans.
Qed.

Lemma wp_save_text_to_file (T : gset Path) text (p : Path) (Q : unit → gset Path → Prop) E d :
  p ∈ T →
  (∀ d', d ⊆ d' → p ∈ d' → Q () d') →
  wp T (save_text_to_file text p) Q E d.
Proof.
  intros Hp H w Hw. simpl. rewrite dom_insert_L. split; [set_solver|].
  intros d' Hd'. apply H; set_solver.
Qed.

Lemma wp_time_sleep (T : gset Path) secs (Q : unit → gset Path → Prop) (E : exn → gset Path → Prop) d :
  (∀ d', d ⊆ d' → Q () d') →
  (∀ e d', d ⊆ d' → E e d') →
  wp T (time_sleep secs) Q E d.
Proof.
  intros HQ HE. unfold time_sleep.
  destruct (secs <? 0); [|destruct (sleep_refused secs)]; simpl.
  - intros d' Hd'. by apply HE.
  - intros d' Hd'. by apply HE.
  - intros w Hw. split; [set_solver|]. intros d' Hd'. apply HQ. by etrans.
Qed.

Lemma wp_gTTS_save (T : gset Path) text lang (p : Path) (Q : unit → gset Path → Prop)
    (E : exn → gset Path → Prop) d :
  p ∈ T →
  (∀ d', d ⊆ d' → p ∈ d' → Q () d') →
  (∀ n e d', gtts n text lang = inl e → d ⊆ d' → E e d') →
  wp T (gTTS_save text lang p) Q E d.
Proof.
  intros Hp HQ HE w Hw. simpl.
  destruct (gtts (length (tts_calls w)) text lang) as [e|data] eqn:Hg; simpl.
  - destruct (gtts_leaves _ _ _); simpl; rewrite ?dom_insert_L;
      (split; [set_solver|]); intros d' Hd'; (eapply HE; [done|]); set_solver.
  - rewrite dom_insert_L. split; [set_solver|].
    intros d' Hd'. apply HQ; set_solver.
Qed.

(** The attempts of the retry loop create no file but the destination, and
    an attempt that returns has created it. *)
Lemma wp_attempts (T : gset Path) text lang (p : Path) attempts delay d :
  p ∈ T →
  wp T (for_in attempts (attempt_body text lang p) delay)
     (λ c d', match c with Return r => r = p ∧ p ∈ d' | Continue _ => True end)
     (λ _ _, True) d.
Proof.
  intros Hp. revert delay d.
  induction attempts as [|i attempts IH]; intros delay d; [done|].
  rewrite for_in_cons. apply wp_bind. unfold attempt_body.
  apply wp_try_except. apply wp_bind. apply wp_gTTS_save; [done| |].
  - intros d' Hd' Hin. simpl. intros d1 Hd1 d2 Hd2. split; [done|].
    apply Hd2, Hd1, Hin.
  - intros n e d' _ Hd'.
    assert (Hraise : wp T (Raise e)
      (λ c d', wp T match c with
                    | Continue s' => for_in attempts (attempt_body text lang p) s'
                    | Return r => Ret (Return r)
                    end
                 (λ c d', match c with Return r => r = p ∧ p ∈ d' | Continue _ => True end)
                 (λ _ _, True) d')
      (λ _ _, True) d') by done.
    destruct e as [msg| | |]; try exact Hraise.
    destruct (contains RATE_LIMIT_MARKER msg); [|exact Hraise].
    apply (wp_bind T (print _)), wp_print. intros d1 Hd1.
    apply (wp_bind T (time_sleep _)), wp_time_sleep; [|done].
    intros d2 Hd2. simpl. intros d3 Hd3. apply IH.
Qed.

Lemma wp_retry_loop (T : gset Path) text lang (p : Path) attempts delay d :
  p ∈ T →
  wp T (retry_loop text lang p attempts delay)
     (λ r d', r = p ∧ p ∈ d') (λ _ _, True) d.
Proof.
  intros Hp. unfold retry_loop. apply wp_bind.
  eapply wp_conseq; [done| |done|by apply wp_attempts].
  intros [s|r] d' Hd' H; simpl; [done|].
  intros d'' Hd''. destruct H as [-> H]. split; [done|]. by apply Hd''.
Qed.

Lemma wp_convert_text_to_speech (T : gset Path) text filename folder lang delay m d :
  path_div folder (filename ++ lit ".mp3") ∈ T →
  wp T (convert_text_to_speech text filename folder lang delay m)
     (λ r d', path_div folder (filename ++ lit ".mp3") ∈ d') (λ _ _, True) d.
Proof.
  intros Hp. unfold convert_text_to_speech. apply wp_bind, wp_path_exists.
  intros [] d' Hd' Hb.
  - apply (wp_bind T (print _)), wp_print. intros d1 Hd1. simpl.
    intros d2 Hd2. apply Hd2, Hd1. by apply Hb.
  - eapply wp_conseq; [done| |done|by apply wp_retry_loop].
    by intros r d1 _ [_ H].
Qed.

Lemma wp_process_pdf pdf out audio lang delay m d :
  wp (targets out audio pdf) (process_pdf pdf out audio lang delay m)
     (λ _ d', targets out audio pdf ⊆ d') (λ _ _, True) d.
Proof.
  unfold process_pdf, targets, extract_text_from_pdf_with_ocr.
  destruct (pdfplumber_open pdf) as [e|pages]; [done|].
  change (Ret ?text ≫= ?f) with (f text). cbv beta.
  destruct (truthy (strip (fold_left page_step pages []))); simpl negb; cbv iota.
  - fold (text_path out pdf).
    apply (wp_bind _ (save_text_to_file _ _)), wp_save_text_to_file; [set_solver|].
    intros d1 Hd1 Htxt.
    apply (wp_bind _ (convert_text_to_speech _ _ _ _ _ _)).
    eapply wp_conseq; [done| |done|
      apply wp_frame, wp_convert_text_to_speech; fold (audio_path audio pdf); set_solver].
    intros r d2 Hd2 [Hmp3 Hd12]. apply wp_print. intros d3 Hd3.
    fold (audio_path audio pdf) in Hmp3. set_solver.
  - apply wp_print. set_solver.
Qed.

(** *** The worker pool *)

Lemma pool_inv_step E D0 Ts st st' :
  pool_step st st' → pool_inv E D0 Ts st → pool_inv E D0 Ts st'.
Proof.
  intros Hstep (HD0 & Hdom & Hall). destruct Hstep as [X pre op k post w].
  simpl in *. pose proof (handle_files_mono op w) as Hmono.
  apply Forall2_app_inv_r in Hall as (Ts1 & Ts' & Hpre & Hall & ->).
  apply Forall2_cons_inv_r in Hall as (T & Ts2 & Hwp & Hpost & ->).
  simpl in Hwp. destruct (Hwp w) as [Hnew Hk]; [done|].
  split; [by etrans|]. split.
  - etrans; [apply Hnew|]. rewrite union_list_app_L, union_list_cons in *.
    set_solver.
  - apply Forall2_app; [|constructor; [done|]].
    + eapply Forall2_impl; [apply Hpre|]. intros T' t. by apply wp_mono.
    + eapply Forall2_impl; [apply Hpost|]. intros T' t. by apply wp_mono.
Qed.

Lemma pool_inv_steps E D0 Ts st st' :
  rtc pool_step st st' → pool_inv E D0 Ts st → pool_inv E D0 Ts st'.
Proof. induction 1; eauto using pool_inv_step. Qed.

Lemma pool_inv_start pdfs out audio lang d m w :
  pool_inv (λ _ _, True) (dom (files w)) (targets out audio <$> pdfs)
           ((λ pdf, process_pdf pdf out audio lang d m) <$> pdfs, w).
Proof.
  split; [done|]. split; [set_solver|]. simpl.
  apply Forall2_fmap, Forall_Forall2_diag, Forall_forall.
  intros pdf _. apply wp_process_pdf.
Qed.

(** When every call has returned, the files are those of the start and the
    targets of the calls. *)
Lemma pool_inv_all_returned E D0 Ts calls w :
  pool_inv E D0 Ts (calls, w) →
  Forall (λ c, c = Ret ()) calls →
  dom (files w) = D0 ∪ ⋃ Ts.
Proof.
  intros (HD0 & Hdom & Hall) Hret. simpl in *.
  apply (anti_symm (⊆)); [done|]. apply union_least; [done|].
  clear Hdom. induction Hall as [|T c Ts calls Hwp Hall IH]; [set_solver|].
  apply Forall_cons in Hret as [-> Hret]. rewrite union_list_cons.
  apply union_least; [by apply Hwp|by apply IH].
Qed.

Lemma pool_step_at ts i {X} (op : Eff X) k w :
  ts !! i = Some (Vis op k) →
  pool_step (ts, w) (<[i := k (handle op w).1]> ts, (handle op w).2).
Proof.
  intros Hi. pose proof (lookup_lt_Some _ _ _ Hi) as Hlt.
  rewrite <- (take_drop_middle ts i (Vis op k)) at 1 by done.
  rewrite insert_take_drop by done. apply pool_step_event.
Qed.

Lemma run_schedule_steps schedule st :
  rtc pool_step st (run_schedule schedule st).
Proof.
  revert st. induction schedule as [|i schedule IH]; intros st; [done|].
  simpl. etrans; [|apply IH]. unfold step_thread.
  destruct st as [ts w]. simpl.
  destruct (ts !! i) as [[a|e|X op k]|] eqn:Hi; try done.
  apply rtc_once. by apply pool_step_at.
Qed.

Lemma pool_run_thread pre (p : Prog unit) post w :
  rtc pool_step (pre ++ p :: post, w)
                (pre ++ outcome (run p w).1 :: post, (run p w).2).
Proof.
  revert w. induction p as [a|e|X op k IH]; intros w; try done.
  eapply rtc_l; [apply pool_step_event|].
  simpl run. destruct (handle op w) as [x w'] eqn:Hop. apply IH.
Qed.

Lemma pool_run_each pre ps w :
  rtc pool_step (pre ++ ps, w) (pre ++ (run_each ps w).1, (run_each ps w).2).
Proof.
  revert pre w. induction ps as [|p ps IH]; intros pre w; [done|].
  simpl. pose proof (pool_run_thread pre p ps w) as Hp.
  destruct (run p w) as [r w1]. specialize (IH (pre ++ [outcome r]) w1).
  destruct (run_each ps w1) as [ts w2]. simpl in *.
  rewrite <- !app_assoc in IH. by etrans.
Qed.

Lemma run_each_finished ps w : Forall finished (run_each ps w).1.
Proof.
  revert w. induction ps as [|p ps IH]; intros w; simpl; [done|].
  destruct (run p w) as [r w1]. specialize (IH w1).
  destruct (run_each ps w1) as [ts w2]. constructor; [by destruct r|done].
Qed.

(** A sequential run that returns is the schedule [run_each] of the pool,
    and every call has returned in it. *)
Lemma main_sequential_run_each pdfs out audio lang d m w w' :
  run (main_sequential pdfs out audio lang d m) w = (inr (), w') →
  (run_each ((λ pdf, process_pdf pdf out audio lang d m) <$> pdfs) w).2 = w' ∧
  Forall (λ c, c = Ret ())
    (run_each ((λ pdf, process_pdf pdf out audio lang d m) <$> pdfs) w).1.
Proof.
  revert w. induction pdfs as [|pdf pdfs IH]; intros w Hrun.
  { by injection Hrun as <-. }
  rewrite main_sequential_cons in Hrun. simpl.
  destruct (run (process_pdf pdf out audio lang d m) w) as [[e|[]] w1]; [done|].
  apply IH in Hrun as [Hw Hall].
  destruct (run_each _ w1) as [ts w2]. simpl in *. split; [done|].
  by constructor.
Qed.

(** C8.  Take a sequential run of the batch that meets no error, and a
    parallel run over the same documents and folders in which no call
    raised.  The files on disk after the two runs are the same set: the
    files present before, and for every document that has text its text
    file and its audio file.  (Rate-limited attempts need not be excluded.)
    A parallel run exists from every world. *)
Theorem parallel_run_same_files_as_sequential
    (pdfs : list Path) (out audio : Path) (lang : str) (d m : Z)
    (w w_seq : World) (calls : list (Prog unit)) (w_par : World) :
  run (main_sequential pdfs out audio lang d m) w = (inr (), w_seq) →
  main_parallel pdfs out audio lang d m w calls w_par →
  Forall (λ c, c = Ret ()) calls →
  dom (files w_par) = dom (files w_seq) ∧
  dom (files w_seq) = dom (files w) ∪ ⋃ (targets out audio <$> pdfs) ∧
  (∃ calls' w', main_parallel pdfs out audio lang d m w calls' w').
Proof.
  intros Hseq [Hpar _] Hret.
  pose proof (pool_inv_start pdfs out audio lang d m w) as Hinv.
  assert (Hsched := pool_run_each []
            ((λ pdf, process_pdf pdf out audio lang d m) <$> pdfs) w).
  assert (Hfin := run_each_finished
            ((λ pdf, process_pdf pdf out audio lang d m) <$> pdfs) w).
  apply main_sequential_run_each in Hseq as [Hw Hall].
  destruct (run_each _ w) as [ts w2]. simpl in *. subst w2.
  assert (Hs : dom (files w_seq) = dom (files w) ∪ ⋃ (targets out audio <$> pdfs)).
  { eapply pool_inv_all_returned; [|apply Hall].
    eapply pool_inv_steps; [apply Hsched|apply Hinv]. }
  split; [|split; [done|]].
  - rewrite Hs. eapply pool_inv_all_returned; [|apply Hret].
    eapply pool_inv_steps; [apply Hpar|apply Hinv].
  - by exists ts, w_seq.
Qed.

(** *** A service that always answers with audio data *)

Lemma wp_retry_loop_served (T : gset Path) text lang (p : Path) i attempts delay E d :
  (∀ n, ∃ data, gtts n text lang = inr data) →
  p ∈ T →
  wp T (retry_loop text lang p (i :: attempts) delay)
     (λ r d', r = p ∧ p ∈ d') E d.
Proof.
  intros Hserved Hp. unfold retry_loop. apply wp_bind.
  rewrite for_in_cons. apply wp_bind. unfold attempt_body.
  apply wp_try_except. apply wp_bind. apply wp_gTTS_save; [done| |].
  - intros d' Hd' Hin. simpl. intros d1 Hd1 d2 Hd2 d3 Hd3.
    split; [done|]. apply Hd3, Hd2, Hd1, Hin.
  - intros n e d' Hg. destruct (Hserved n) as [data Hdata]. congruence.
Qed.

Lemma wp_process_pdf_served pdf out audio lang delay m E d :
  (∀ n text lang, ∃ data, gtts n text lang = inr data) →
  (∃ pages, pdfplumber_open pdf = inr pages) →
  0 < m →
  wp (targets out audio pdf) (process_pdf pdf out audio lang delay m)
     (λ _ d', targets out audio pdf ⊆ d') E d.
Proof.
  intros Hserved [pages Hopen] Hm.
  unfold process_pdf, targets, extract_text_from_pdf_with_ocr. rewrite Hopen.
  change (Ret ?text ≫= ?f) with (f text). cbv beta.
  destruct (truthy (strip (fold_left page_step pages []))); simpl negb; cbv iota.
  - fold (text_path out pdf).
    apply (wp_bind _ (save_text_to_file _ _)), wp_save_text_to_file; [set_solver|].
    intros d1 Hd1 Htxt.
    apply (wp_bind _ (convert_text_to_speech _ _ _ _ _ _)).
    unfold convert_text_to_speech. fold (audio_path audio pdf).
    apply wp_bind, wp_path_exists. intros [] d2 Hd2 Hb.
    + apply (wp_bind _ (print _)), wp_print. intros d3 Hd3.
      intros d4 Hd4. apply wp_print. intros d5 Hd5.
      specialize (Hb eq_refl). set_solver.
    + unfold range. rewrite seqZ_cons by done.
      eapply wp_conseq; [done| |done|
        apply wp_frame, wp_retry_loop_served; [done|set_solver]].
      intros r d3 Hd3 [[_ Hmp3] Hd23]. apply wp_print. intros d4 Hd4.
      set_solver.
  - apply wp_print. set_solver.
Qed.

Lemma wp_run_returns {A : Type} (T : gset Path) (p : Prog A) Q d w :
  wp T p Q (λ _ _, False) d →
  d ⊆ dom (files w) →
  ∃ a w', run p w = (inr a, w').
Proof.
  revert d w. induction p as [a|e|X op k IH]; simpl; intros d w Hwp Hd.
  - eauto.
  - destruct (Hwp d). done.
  - destruct (Hwp w Hd) as [_ Hk]. destruct (handle op w) as [x w1].
    by eapply IH.
Qed.

(** X19.  With such a service, documents that can be opened and
    [max_retries > 0], the sequential run returns, and in every parallel run
    every call has returned: these are runs without rate limiting and
    without errors. *)
Lemma served_runs_return pdfs out audio lang d m w :
  (∀ n text lang, ∃ data, gtts n text lang = inr data) →
  Forall (λ pdf, ∃ pages, pdfplumber_open pdf = inr pages) pdfs →
  0 < m →
  (∃ w_seq, run (main_sequential pdfs out audio lang d m) w = (inr (), w_seq)) ∧
  (∀ calls w_par, main_parallel pdfs out audio lang d m w calls w_par →
                  Forall (λ c, c = Ret ()) calls).
Proof.
  intros Hserved Hopen Hm. split.
  - revert w. induction Hopen as [|pdf pdfs Hpdf Hopen IH]; intros w.
    { by exists w. }
    destruct (wp_run_returns _ _ _ _ w
                (wp_process_pdf_served pdf out audio lang d m _ (dom (files w))
                   Hserved Hpdf Hm)) as ([] & w1 & Hp); [done|].
    destruct (IH w1) as [w_seq Hseq]. exists w_seq.
    by rewrite main_sequential_cons, Hp.
  - intros calls w' [Hsteps Hfin].
    assert (Hinv : pool_inv (λ _ _, False) (dom (files w)) (targets out audio <$> pdfs)
                     ((λ pdf, process_pdf pdf out audio lang d m) <$> pdfs, w)).
    { split; [done|]. split; [set_solver|]. simpl.
      apply Forall2_fmap, Forall_Forall2_diag.
      eapply Forall_impl; [apply Hopen|]. intros pdf Hpdf.
      by apply wp_process_pdf_served. }
    destruct (pool_inv_steps _ _ _ _ _ Hsteps Hinv) as (_ & _ & Hall).
    simpl in Hall. clear Hsteps Hinv.
    induction Hall as [|T c Ts calls Hwp Hall IH]; [done|].
    apply Forall_cons in Hfin as [Hc Hfin]. constructor; [|by apply IH].
    destruct c as [[]|e|]; [done| |done]. simpl in Hwp.
    by destruct (Hwp (dom (files w'))).
Qed.


(** *** Further properties of the speech synthesizer *)

Lemma total_sleep_backoff d k :
  total_sleep (backoff_delays d k) = d * (2 ^ Z.of_nat k - 1).
Proof.
  revert d. induction k as [|k IH]; intros d.
  - simpl. lia.
  - rewrite backoff_delays_S. simpl. fold (total_sleep (backoff_delays (d * 2) k)).
    rewrite IH, Nat2Z.inj_succ, Z.pow_succ_r by lia. lia.
Qed.

Lemma total_sleep_app l1 l2 :
  total_sleep (l1 ++ l2) = total_sleep l1 + total_sleep l2.
Proof.
  unfold total_sleep. induction l1 as [|x l1 IH]; simpl; lia.
Qed.

(** X1.  Whatever the service does, a call of [convert_text_to_speech] makes
    at most [max_retries] attempts (none when [max_retries <= 0]), every one
    of them for the text and language it was given; the sleeps it takes are
    the first [k] delays of the doubling sequence, where [k] is the number
    of attempts or one less. *)
Theorem convert_attempts_bounded
    (text filename : str) (folder : Path) (lang : str) (d m : Z)
    (w : World) (r : exn + Path) (w' : World) :
  run (convert_text_to_speech text filename folder lang d m) w = (r, w') →
  ∃ n k : nat,
    (n ≤ Z.to_nat m)%nat ∧
    tts_calls w' = tts_calls w ++ replicate n (text, lang) ∧
    sleeps w' = sleeps w ++ backoff_delays d k ∧
    (k ≤ n ≤ S k)%nat.
Proof.
  intros Hrun.
  destruct (files w !! path_div folder (filename ++ lit ".mp3")) as [f|] eqn:Hf.
  - rewrite convert_cached in Hrun by (by rewrite Hf). injection Hrun as <- <-.
    exists 0%nat, 0%nat. simpl. rewrite !app_nil_r. repeat split; auto; lia.
  - rewrite convert_not_cached in Hrun by done.
    apply retry_loop_outcome in Hrun as (n & k & Hn & Hc & Hs & Hnk & _).
    exists n, k. unfold range in Hn. rewrite length_seqZ in Hn.
    repeat split; auto; destruct Hnk as [(-> & _) | ->]; lia.
Qed.

(** X2.  When a call of [convert_text_to_speech] returns, the path returned
    is [<folder>/<filename>.mp3] and a file is there; when it raises, no
    file was at that path before the call, and after it the path holds
    nothing or what a failed attempt left there.  In both cases every file
    at another path is as it was. *)
Theorem convert_outcome_on_disk
    (text filename : str) (folder : Path) (lang : str) (d m : Z)
    (w : World) (r : exn + Path) (w' : World) :
  let path := path_div folder (filename ++ lit ".mp3") in
  run (convert_text_to_speech text filename folder lang d m) w = (r, w') →
  match r with
  | inr p => p = path ∧ is_Some (files w' !! path)
  | inl _ => files w !! path = None ∧
             left_by_failure text lang (files w' !! path)
  end ∧
  (∀ q, q ≠ path → files w' !! q = files w !! q).
Proof.
  intros path Hrun. split.
  - destruct r as [e|p].
    + by apply convert_raise_dest in Hrun.
    + by apply convert_return_files in Hrun as [-> ?].
  - by eapply convert_frame.
Qed.

(** X3.  A call that uses up its retries on rate-limit failures, each of
    its delays being one that [time.sleep] sleeps, has slept
    [retry_delay * (2 ^ max_retries - 1)] seconds in all before it raises:
    the last failed attempt is followed by a sleep too. *)
Theorem convert_exhaustion_total_sleep
    (text filename : str) (folder : Path) (lang : str)
    (retry_delay max_retries : Z) (w : World) :
  files w !! path_div folder (filename ++ lit ".mp3") = None →
  0 ≤ max_retries →
  sleeps_accepted retry_delay (Z.to_nat max_retries) →
  rate_limited_from text lang (length (tts_calls w)) (Z.to_nat max_retries) →
  total_sleep
    (sleeps (run (convert_text_to_speech text filename folder lang
                    retry_delay max_retries) w).2)
  = total_sleep (sleeps w) + retry_delay * (2 ^ max_retries - 1).
Proof.
  intros Hnone Hm Hd Hrl.
  assert (Hlen : length (range max_retries) = Z.to_nat max_retries)
    by apply length_seqZ.
  rewrite convert_not_cached by done.
  rewrite <- (app_nil_r (range max_retries)).
  rewrite retry_loop_rate_limited_prefix by (by rewrite ?Hlen).
  rewrite retry_loop_nil, Hlen. simpl.
  rewrite after_rate_limits_sleeps, total_sleep_app, total_sleep_backoff.
  by rewrite Z2Nat.id.
Qed.



(** X20.  [time.sleep] bounds the backoff.  When the service keeps
    answering with rate-limit failures and the delay, doubled [k] times, is
    one that [time.sleep] refuses, the call raises the exception of
    [time.sleep] after [k + 1] attempts, having slept the [k] delays before
    it, whatever number of retries remains. *)
Theorem convert_refused_delay_raises
    (text filename : str) (folder : Path) (lang : str)
    (retry_delay max_retries : Z) (k : nat) (w : World) (e' : exn) :
  let path := path_div folder (filename ++ lit ".mp3") in
  files w !! path = None →
  Z.of_nat k < max_retries →
  0 ≤ retry_delay →
  sleeps_accepted retry_delay k →
  sleep_refused (retry_delay * 2 ^ Z.of_nat k) = Some e' →
  rate_limited_from text lang (length (tts_calls w)) (S k) →
  ∃ w',
    run (convert_text_to_speech text filename folder lang retry_delay max_retries) w
      = (inl e', w') ∧
    tts_calls w' = tts_calls w ++ replicate (S k) (text, lang) ∧
    sleeps w' = sleeps w ++ backoff_delays retry_delay k ∧
    (∀ q, q ≠ path → files w' !! q = files w !! q).
Proof.
  intros path Hnone Hk Hd Hacc Href Hrl.
  destruct (range_split max_retries k) as (pre & rest & Hr & Hpre & Hrest); [lia|].
  destruct rest as [|i rest]; [simpl in Hrest; lia|].
  set (w_k := after_rate_limits k text lang path retry_delay w).
  assert (Hcalls : tts_calls w_k = tts_calls w ++ replicate k (text, lang))
    by apply after_rate_limits_tts_calls.
  destruct (Hrl k) as (e & He & Hre); [lia|].
  assert (Hek : gtts (length (tts_calls w_k)) text lang = inl e)
    by (by rewrite Hcalls, length_app, length_replicate).
  eexists. split; [|split; [|split]].
  - rewrite convert_not_cached by done. fold path. rewrite Hr.
    rewrite retry_loop_rate_limited_prefix; rewrite ?Hpre.
    + fold w_k. rewrite retry_loop_cons.
      rewrite (attempt_rate_limited_refused _ _ _ _ _ _ e e'); [done..| |done].
      apply Z.mul_nonneg_nonneg; [done|]. apply Z.pow_nonneg. lia.
    + done.
    + intros j Hj. apply Hrl. lia.
  - cbn [tts_calls log_notice].
    rewrite after_attempt_tts_calls, Hcalls, <- app_assoc. f_equal.
    by rewrite replicate_S_end.
  - simpl. rewrite after_attempt_sleeps. apply after_rate_limits_sleeps.
  - intros q Hq. simpl. rewrite after_attempt_frame by done.
    by apply after_rate_limits_frame.
Qed.

(** X6.  [is_cached] only looks: it answers whether a file is at
    [<folder>/<key>.mp3] and changes nothing.  Asked for a file name, it
    tells what [convert_text_to_speech] will do: on [True] the call returns
    the path at once, without an attempt; on [False] a call that returns has
    made at least one attempt; and after a call that returned the answer is
    [True]. *)
Theorem is_cached_tells_cache_hit
    (text filename : str) (folder : Path) (lang : str) (d m : Z) (w : World) :
  let path := path_div folder (filename ++ lit ".mp3") in
  let call := convert_text_to_speech text filename folder lang d m in
  run (is_cached filename folder) w
    = (inr (bool_decide (is_Some (files w !! path))), w) ∧
  (run (is_cached filename folder) w = (inr true, w) →
   run call w = (inr path, log_notice (UsingExisting filename) w)) ∧
  (run (is_cached filename folder) w = (inr false, w) →
   ∀ p w', run call w = (inr p, w') → tts_calls w' ≠ tts_calls w) ∧
  (∀ p w', run call w = (inr p, w') →
           run (is_cached filename folder) w' = (inr true, w')).
Proof.
  intros path call.
  assert (Hc : ∀ w0, run (is_cached filename folder) w0
                     = (inr (bool_decide (is_Some (files w0 !! path))), w0)) by done.
  split; [apply Hc|]. rewrite !Hc. split; [|split].
  - intros [= Hb]. apply bool_decide_eq_true in Hb. by apply convert_cached.
  - intros [= Hb] p w' Hrun. apply bool_decide_eq_false in Hb.
    assert (Hnone : files w !! path = None).
    { destruct (files w !! path) eqn:E; [|done]. destruct Hb. eauto. }
    unfold call in Hrun. rewrite convert_not_cached in Hrun by done.
    apply retry_loop_outcome in Hrun as (n & k & _ & Hcalls & _ & Hnk & _).
    destruct Hnk as [(_ & _ & [=]) | ->]. rewrite Hcalls. simpl.
    intros Heq. apply (f_equal length) in Heq.
    rewrite length_app in Heq. simpl in Heq. lia.
  - intros p w' Hrun. rewrite Hc. apply convert_return_files in Hrun as [-> Hex].
    by rewrite bool_decide_eq_true_2.
Qed.

(** *** Further properties of the document processor *)

Lemma process_pdf_unreadable pdf out audio lang d m e w :
  extract_text_from_pdf_with_ocr pdf = Raise e →
  run (process_pdf pdf out audio lang d m) w = (inl e, w).
Proof. intros Hx. unfold process_pdf. by rewrite Hx. Qed.

(** After a call that returned for a document with text, the text file
    holds the text and the audio file exists. *)
Lemma process_pdf_returned_files pdf out audio lang d m text w w' :
  extract_text_from_pdf_with_ocr pdf = Ret text →
  strip text ≠ [] →
  run (process_pdf pdf out audio lang d m) w = (inr (), w') →
  files w' !! text_path out pdf = Some (TextFile text) ∧
  is_Some (files w' !! audio_path audio pdf) ∧
  ∃ w0, w' = log_notice (Processed (path_name pdf)) w0.
Proof.
  intros Hx Hs Hrun. rewrite (process_pdf_text _ _ _ _ _ _ text) in Hrun by done.
  set (w1 := set_files _ w) in Hrun.
  destruct (run (convert_text_to_speech _ _ _ _ _ _) w1) as [[e|r] w2] eqn:Hc; [done|].
  injection Hrun as <-. split; [|split; [|by eexists]].
  - destruct (decide (text_path out pdf = audio_path audio pdf)) as [Heq|Hne].
    + rewrite convert_cached in Hc.
      * injection Hc as _ <-. simpl. by rewrite lookup_insert_eq.
      * fold (audio_path audio pdf). rewrite <- Heq. simpl.
        by rewrite lookup_insert_eq.
    + simpl. rewrite (convert_frame _ _ _ _ _ _ _ _ _ Hc) by done.
      simpl. by rewrite lookup_insert_eq.
  - by apply convert_return_files in Hc as [-> ?].
Qed.

(** X7.  Whatever comes of it, a call of [process_pdf] leaves every file
    that is neither its text file nor its audio file as it was. *)
Theorem process_pdf_touches_only_its_outputs
    (pdf out audio : Path) (lang : str) (d m : Z)
    (w : World) (r : exn + unit) (w' : World) (q : Path) :
  run (process_pdf pdf out audio lang d m) w = (r, w') →
  q ≠ text_path out pdf →
  q ≠ audio_path audio pdf →
  files w' !! q = files w !! q.
Proof.
  intros Hrun Hq1 Hq2. destruct (extract_cases pdf) as [[e Hx]|[text Hx]].
  { rewrite process_pdf_unreadable with (e:=e) in Hrun by done.
    by injection Hrun as <- <-. }
  destruct (decide (strip text = [])) as [Hs|Hs].
  { rewrite (process_pdf_blank _ _ _ _ _ _ text) in Hrun by done.
    by injection Hrun as <- <-. }
  rewrite (process_pdf_text _ _ _ _ _ _ text) in Hrun by done.
  set (w1 := set_files _ w) in Hrun.
  destruct (run (convert_text_to_speech _ _ _ _ _ _) w1) as [[e|p] w2] eqn:Hc;
    injection Hrun as <- <-; simpl;
    rewrite (convert_frame _ _ _ _ _ _ _ _ _ Hc) by done;
    simpl; by rewrite lookup_insert_ne.
Qed.

(** X8.  When [process_pdf] returns for a document whose text is not blank,
    the text file holds the extracted text as it is (not stripped), the
    audio file exists, and the last line printed is the notice for the
    document. *)
Theorem process_pdf_returns_with_both_outputs
    (pdf out audio : Path) (lang : str) (d m : Z) (text : str) (w w' : World) :
  extract_text_from_pdf_with_ocr pdf = Ret text →
  strip text ≠ [] →
  run (process_pdf pdf out audio lang d m) w = (inr (), w') →
  files w' !! text_path out pdf = Some (TextFile text) ∧
  is_Some (files w' !! audio_path audio pdf) ∧
  last (stdout w') = Some (Processed (path_name pdf)).
Proof.
  intros Hx Hs Hrun.
  destruct (process_pdf_returned_files _ _ _ _ _ _ _ _ _ Hx Hs Hrun)
    as (Htxt & Hmp3 & w0 & ->).
  split; [done|]. split; [done|]. simpl. apply last_snoc.
Qed.

(** X9.  The first, plain run for a document: no audio file yet, a service
    that serves the first attempt, [max_retries > 0].  [process_pdf] writes
    the text file, makes one attempt with the whole text and the language,
    writes the audio data, prints its notice and returns; it does not
    sleep. *)
Theorem process_pdf_first_run
    (pdf out audio : Path) (lang : str) (d m : Z) (text : str)
    (data : bytes) (w : World) :
  extract_text_from_pdf_with_ocr pdf = Ret text →
  strip text ≠ [] →
  text_path out pdf ≠ audio_path audio pdf →
  files w !! audio_path audio pdf = None →
  0 < m →
  gtts (length (tts_calls w)) text lang = inr data →
  run (process_pdf pdf out audio lang d m) w =
  (inr (),
   mkWorld (<[audio_path audio pdf := AudioFile data]>
              (<[text_path out pdf := TextFile text]> (files w)))
           (tts_calls w ++ [(text, lang)])
           (sleeps w)
           (stdout w ++ [Processed (path_name pdf)])).
Proof.
  intros Hx Hs Hne Hnone Hm Hg.
  rewrite (process_pdf_text _ _ _ _ _ _ text) by done.
  rewrite convert_not_cached
    by (fold (audio_path audio pdf); simpl; by rewrite lookup_insert_ne).
  unfold range. rewrite seqZ_cons by done. rewrite retry_loop_cons.
  by rewrite (attempt_saved _ _ _ _ _ _ data).
Qed.

(** X10.  An audio file that exists is never replaced: when the text of a
    document has changed since its audio was made, [process_pdf] writes the
    new text to the text file and leaves the old audio in place, without a
    synthesis attempt. *)
Theorem process_pdf_keeps_stale_audio
    (pdf out audio : Path) (lang : str) (d m : Z) (text : str)
    (old : FileData) (w : World) :
  extract_text_from_pdf_with_ocr pdf = Ret text →
  strip text ≠ [] →
  text_path out pdf ≠ audio_path audio pdf →
  files w !! audio_path audio pdf = Some old →
  ∃ w',
    run (process_pdf pdf out audio lang d m) w = (inr (), w') ∧
    files w' = <[text_path out pdf := TextFile text]> (files w) ∧
    files w' !! audio_path audio pdf = Some old ∧
    tts_calls w' = tts_calls w.
Proof.
  intros Hx Hs Hne Hold. eexists.
  rewrite (process_pdf_text _ _ _ _ _ _ text) by done.
  rewrite convert_cached
    by (fold (audio_path audio pdf); simpl; by rewrite lookup_insert_ne, Hold).
  split; [done|]. simpl. by rewrite lookup_insert_ne.
Qed.

(** X11.  [process_pdf] is idempotent on disk: called again for a document
    for which it has returned (with the same folders, whatever the other
    settings), it returns, leaves every file as it is, and makes no
    synthesis attempt and no sleep. *)
Theorem process_pdf_again_changes_nothing
    (pdf out audio : Path) (lang : str) (d m : Z) (lang' : str) (d' m' : Z)
    (w w1 : World) :
  run (process_pdf pdf out audio lang d m) w = (inr (), w1) →
  ∃ w2,
    run (process_pdf pdf out audio lang' d' m') w1 = (inr (), w2) ∧
    files w2 = files w1 ∧
    tts_calls w2 = tts_calls w1 ∧
    sleeps w2 = sleeps w1.
Proof.
  intros Hrun. destruct (extract_cases pdf) as [[e Hx]|[text Hx]].
  { by rewrite process_pdf_unreadable with (e:=e) in Hrun. }
  destruct (decide (strip text = [])) as [Hs|Hs].
  { eexists. by rewrite (process_pdf_blank _ _ _ _ _ _ text). }
  destruct (process_pdf_returned_files _ _ _ _ _ _ _ _ _ Hx Hs Hrun)
    as (Htxt & Hmp3 & _).
  eexists. rewrite (process_pdf_text _ _ _ _ _ _ text) by done.
  rewrite convert_cached.
  - split; [done|]. simpl. by rewrite insert_id.
  - fold (audio_path audio pdf). simpl. by rewrite insert_id.
Qed.

Lemma forallb_isspace_concat (texts : list str) :
  Forall (λ t, forallb isspace t = true) texts →
  forallb isspace (concat texts) = true.
Proof.
  induction 1 as [|t texts Ht _ IH]; simpl; [done|].
  by rewrite forallb_app, Ht, IH.
Qed.

(** X12.  A page whose native text is not empty is never given to OCR, be
    the text white space only.  So a document all of whose pages (there may
    be none) have a native text of white space is skipped, whatever OCR
    would read on its pages. *)
Theorem process_pdf_skips_whitespace_pages
    (pdf out audio : Path) (lang : str) (d m : Z)
    (pages : list (Page Image)) (w : World) :
  pdfplumber_open pdf = inr pages →
  Forall (λ page, ∃ t, extract_text page = Some t ∧ t ≠ [] ∧
                       forallb isspace t = true) pages →
  extract_text_from_pdf_with_ocr pdf = Ret (concat (native_text <$> pages)) ∧
  run (process_pdf pdf out audio lang d m) w
    = (inr (), log_notice (NoTextFound (path_name pdf)) w).
Proof.
  intros Hopen Hall.
  assert (Hx : extract_text_from_pdf_with_ocr pdf
               = Ret (concat (native_text <$> pages))).
  { unfold extract_text_from_pdf_with_ocr. rewrite Hopen, fold_page_step. simpl.
    do 2 f_equal. apply list_fmap_ext. intros i page Hi.
    destruct (proj1 (Forall_lookup _ _) Hall i page Hi) as (t & Ht & Hne & _).
    unfold page_result, native_text. rewrite Ht. simpl.
    by rewrite bool_decide_eq_true_2. }
  split; [done|]. apply process_pdf_blank with (concat (native_text <$> pages)); [done|].
  apply strip_blank, forallb_isspace_concat, Forall_fmap.
  eapply Forall_impl; [apply Hall|]. intros page (t & Ht & _ & Hsp).
  simpl. unfold native_text. by rewrite Ht.
Qed.

(** X13.  The text of a document is the text of its first pages followed by
    the text of the remaining ones: extraction commutes with splitting a
    document at a page boundary. *)
Theorem extract_splits_at_page_boundary
    (pdf pdf1 pdf2 : Path) (pages1 pages2 : list (Page Image)) :
  pdfplumber_open pdf = inr (pages1 ++ pages2) →
  pdfplumber_open pdf1 = inr pages1 →
  pdfplumber_open pdf2 = inr pages2 →
  ∃ text1 text2,
    extract_text_from_pdf_with_ocr pdf1 = Ret text1 ∧
    extract_text_from_pdf_with_ocr pdf2 = Ret text2 ∧
    extract_text_from_pdf_with_ocr pdf = Ret (text1 ++ text2).
Proof.
  intros H H1 H2. unfold extract_text_from_pdf_with_ocr. rewrite H, H1, H2.
  do 2 eexists. split; [done|]. split; [done|].
  rewrite !fold_page_step, fmap_app, concat_app. done.
Qed.

(** *** Further properties of the batch *)

Lemma main_sequential_app pre post out audio lang d m w :
  run (main_sequential (pre ++ post) out audio lang d m) w =
  match run (main_sequential pre out audio lang d m) w with
  | (inr _, w1) => run (main_sequential post out audio lang d m) w1
  | (inl e, w1) => (inl e, w1)
  end.
Proof.
  revert w. induction pre as [|pdf pre IH]; intros w; [done|].
  rewrite <- app_comm_cons, !main_sequential_cons.
  destruct (run (process_pdf pdf out audio lang d m) w) as [[e|[]] w1]; [done|].
  apply IH.
Qed.

(** X14.  In sequential mode the first call that raises ends the batch: the
    exception is that of the call, the world is the one the call left, and
    the documents after it are not processed.  For a document that cannot
    be opened this is the world left by the documents before it. *)
Theorem main_sequential_stops_at_first_error
    (pre post : list Path) (pdf out audio : Path) (lang : str) (d m : Z)
    (w w1 w2 : World) (e : exn) :
  run (main_sequential pre out audio lang d m) w = (inr (), w1) →
  run (process_pdf pdf out audio lang d m) w1 = (inl e, w2) →
  run (main_sequential (pre ++ pdf :: post) out audio lang d m) w = (inl e, w2) ∧
  (∀ e', pdfplumber_open pdf = inl e' → e = e' ∧ w2 = w1).
Proof.
  intros Hpre Hpdf. split.
  - by rewrite main_sequential_app, Hpre, main_sequential_cons, Hpdf.
  - intros e' Hopen. rewrite process_pdf_unreadable with (e:=e') in Hpdf.
    + by injection Hpdf as <- <-.
    + unfold extract_text_from_pdf_with_ocr. by rewrite Hopen.
Qed.

(** X15.  In parallel mode a call that raises does not keep the others from
    their work.  At the end of any parallel run there is one finished call
    per document, no file has been removed, the files created are among the
    text and audio files of the documents, and every call that has returned
    has its files on disk, whatever became of the other calls. *)
Theorem main_parallel_outputs
    (pdfs : list Path) (out audio : Path) (lang : str) (d m : Z)
    (w : World) (calls : list (Prog unit)) (w' : World) :
  main_parallel pdfs out audio lang d m w calls w' →
  length calls = length pdfs ∧
  dom (files w) ⊆ dom (files w') ∧
  dom (files w') ⊆ dom (files w) ∪ ⋃ (targets out audio <$> pdfs) ∧
  (∀ i pdf, pdfs !! i = Some pdf → calls !! i = Some (Ret ()) →
            targets out audio pdf ⊆ dom (files w')).
Proof.
  intros [Hsteps _].
  destruct (pool_inv_steps _ _ _ _ _ Hsteps
              (pool_inv_start pdfs out audio lang d m w)) as (HD0 & Hdom & Hall).
  simpl in *. apply Forall2_fmap_l in Hall.
  split; [symmetry; by eapply Forall2_length|]. split; [done|]. split; [done|].
  intros i pdf Hi Hc.
  pose proof (Forall2_lookup_lr _ _ _ _ _ _ Hall Hi Hc) as Hwp. by apply Hwp.
Qed.

(** *** Calls that have nothing to synthesise *)

Lemma quiet_mono {A : Type} (p : Prog A) Q d d' :
  d ⊆ d' → quiet p Q d → quiet p Q d'.
Proof.
  revert d d'. induction p as [a|e|X op k IH]; simpl; intros d d' Hd H.
  - intros d'' Hd'. apply H. by etrans.
  - done.
  - intros w Hw. apply H. by etrans.
Qed.

Lemma quiet_bind {A B : Type} (p : Prog A) (f : A → Prog B) Q d :
  quiet p (λ a d', quiet (f a) Q d') d → quiet (bind f p) Q d.
Proof.
  revert d. induction p as [a|e|X op k IH]; simpl; intros d H.
  - by apply H.
  - done.
  - intros w Hw. destruct (H w Hw) as (H1 & H2 & H3). auto.
Qed.

Lemma quiet_path_exists (p : Path) (Q : bool → gset Path → Prop) d :
  (∀ b d', d ⊆ d' → (p ∈ d → b = true) → Q b d') →
  quiet (path_exists p) Q d.
Proof.
  intros H w Hw. simpl. do 2 (split; [done|]). intros d' Hd'.
  apply H; [by etrans|]. intros Hp. apply bool_decide_eq_true.
  apply elem_of_dom. by apply Hw.
Qed.

Lemma quiet_print n (Q : unit → gset Path → Prop) d :
  (∀ d', d ⊆ d' → Q () d') → quiet (print n) Q d.
Proof.
  intros H w Hw. simpl. do 2 (split; [done|]). intros d' Hd'. apply H. by etrans.
Qed.

Lemma quiet_save_text_to_file text (p : Path) (Q : unit → gset Path → Prop) d :
  (∀ d', d ⊆ d' → Q () d') → quiet (save_text_to_file text p) Q d.
Proof.
  intros H w Hw. simpl. do 2 (split; [done|]). intros d' Hd'. apply H.
  etrans; [apply Hw|]. etrans; [|apply Hd']. rewrite dom_insert_L. set_solver.
Qed.

Lemma quiet_process_pdf pdf out audio lang delay m text d :
  extract_text_from_pdf_with_ocr pdf = Ret text →
  strip text = [] ∨ audio_path audio pdf ∈ d →
  quiet (process_pdf pdf out audio lang delay m) (λ _ _, True) d.
Proof.
  intros Hx Hc. unfold process_pdf. rewrite Hx.
  change (Ret text ≫= ?f) with (f text). cbv beta.
  destruct (strip text) as [|c s] eqn:Hs; simpl negb; cbv iota.
  { by apply quiet_print. }
  destruct Hc as [?|Hc]; [done|].
  apply (quiet_bind (save_text_to_file _ _)), quiet_save_text_to_file.
  intros d1 Hd1. apply (quiet_bind (convert_text_to_speech _ _ _ _ _ _)).
  unfold convert_text_to_speech. fold (audio_path audio pdf).
  apply quiet_bind, quiet_path_exists. intros b d2 Hd2 Hb.
  rewrite Hb by (by apply Hd1).
  apply (quiet_bind (print _)), quiet_print. intros d3 Hd3 d4 Hd4.
  by apply quiet_print.
Qed.

Lemma pool_quiet_step w0 st st' :
  pool_step st st' → pool_quiet w0 st → pool_quiet w0 st'.
Proof.
  intros Hstep (Hc & Hs & Hall). destruct Hstep as [X pre op k post w].
  simpl in *. pose proof (handle_files_mono op w) as Hmono.
  apply Forall_app in Hall as [Hpre Hall].
  apply Forall_cons in Hall as [Hq Hpost].
  simpl in Hq. destruct (Hq w) as (Hc' & Hs' & Hk); [done|].
  unfold pool_quiet. simpl. split; [congruence|]. split; [congruence|].
  apply Forall_app. split; [|constructor; [done|]].
  - eapply Forall_impl; [apply Hpre|]. intros t. by apply quiet_mono.
  - eapply Forall_impl; [apply Hpost|]. intros t. by apply quiet_mono.
Qed.

Lemma pool_quiet_steps w0 st st' :
  rtc pool_step st st' → pool_quiet w0 st → pool_quiet w0 st'.
Proof. induction 1; eauto using pool_quiet_step. Qed.

(** X16.  Running the batch again in parallel mode: when every document can
    be opened and has no text or has its audio file already, every call of
    every parallel run returns, and the run makes no synthesis attempt and
    takes no sleep, in whatever order the workers proceed. *)
Theorem main_parallel_rerun_is_quiet
    (pdfs : list Path) (out audio : Path) (lang : str) (d m : Z)
    (w : World) (calls : list (Prog unit)) (w' : World) :
  Forall (λ pdf, ∃ text, extract_text_from_pdf_with_ocr pdf = Ret text ∧
                   (strip text = [] ∨ is_Some (files w !! audio_path audio pdf)))
         pdfs →
  main_parallel pdfs out audio lang d m w calls w' →
  tts_calls w' = tts_calls w ∧
  sleeps w' = sleeps w ∧
  Forall (λ c, c = Ret ()) calls.
Proof.
  intros Hall [Hsteps Hfin].
  assert (Hinit : pool_quiet w
            ((λ pdf, process_pdf pdf out audio lang d m) <$> pdfs, w)).
  { split; [done|]. split; [done|]. simpl. apply Forall_fmap.
    eapply Forall_impl; [apply Hall|]. intros pdf (text & Hx & Hc). simpl.
    apply quiet_process_pdf with text; [done|].
    destruct Hc as [?|Hc]; [by left|right]. by apply elem_of_dom. }
  destruct (pool_quiet_steps _ _ _ Hsteps Hinit) as (Hc & Hs & Hq).
  split; [done|]. split; [done|]. simpl in Hq.
  clear Hsteps Hinit. induction Hq as [|c calls Hc' Hq IH]; [done|].
  apply Forall_cons in Hfin as [Hf Hfin]. constructor; [|by apply IH].
  by destruct c as [[]|e|].
Qed.

(** X17.  A sequential run that returns is one of the parallel runs: the
    pool can proceed document by document, and then every call has returned
    and the world is the one the sequential run leaves. *)
Theorem sequential_run_is_a_parallel_run
    (pdfs : list Path) (out audio : Path) (lang : str) (d m : Z) (w w' : World) :
  run (main_sequential pdfs out audio lang d m) w = (inr (), w') →
  main_parallel pdfs out audio lang d m w (replicate (length pdfs) (Ret ())) w'.
Proof.
  intros Hrun.
  pose proof (pool_run_each []
    ((λ pdf, process_pdf pdf out audio lang d m) <$> pdfs) w) as Hsteps.
  pose proof (run_each_finished
    ((λ pdf, process_pdf pdf out audio lang d m) <$> pdfs) w) as Hfin.
  assert (Hlen : length (run_each
    ((λ pdf, process_pdf pdf out audio lang d m) <$> pdfs) w).1 = length pdfs).
  { clear. revert w. induction pdfs as [|pdf pdfs IH]; intros w; simpl; [done|].
    destruct (run _ w) as [r w1]. specialize (IH w1).
    destruct (run_each _ w1) as [ts w2]. simpl in *. by rewrite IH. }
  apply main_sequential_run_each in Hrun as [Hw Hall].
  destruct (run_each _ w) as [ts w2]. simpl in *. subst w2.
  assert (ts = replicate (length pdfs) (Ret ())) as <-.
  { rewrite <- Hlen. clear -Hall. induction Hall as [|c ts -> _ IH]; [done|].
    simpl. by rewrite <- IH. }
  by split.
Qed.

(** *** The number of events of a run *)

Lemma events_at_most_mono {A : Type} (p : Prog A) n n' :
  (n ≤ n')%nat → events_at_most n p → events_at_most n' p.
Proof.
  revert n n'. induction p as [a|e|X op k IH]; simpl; intros n n' Hn H; try done.
  destruct n as [|n]; [done|]. destruct n' as [|n']; [lia|].
  intros x. apply (IH x n); [lia|done].
Qed.

Lemma events_at_most_bind {A B : Type} (p : Prog A) (f : A → Prog B) n n' :
  events_at_most n p →
  (∀ a, events_at_most n' (f a)) →
  events_at_most (n + n') (bind f p).
Proof.
  revert n. induction p as [a|e|X op k IH]; simpl; intros n H Hf.
  - apply events_at_most_mono with n'; [lia|done].
  - done.
  - destruct n as [|n]; [done|]. simpl. intros x. by apply IH.
Qed.

Lemma events_at_most_try_except {A : Type} (p : Prog A) handler n n' :
  events_at_most n p →
  (∀ e, events_at_most n' (handler e)) →
  events_at_most (n + n') (try_except p handler).
Proof.
  revert n. induction p as [a|e|X op k IH]; simpl; intros n H Hh.
  - done.
  - apply events_at_most_mono with n'; [lia|done].
  - destruct n as [|n]; [done|]. simpl. intros x. by apply IH.
Qed.

Lemma events_attempt_body text lang (p : Path) i d :
  events_at_most 3 (attempt_body text lang p i d).
Proof.
  unfold attempt_body. apply (events_at_most_try_except _ _ 1 2).
  - simpl. by intros [e|].
  - intros [msg| | |]; try done.
    destruct (contains RATE_LIMIT_MARKER msg); [|done].
    simpl. intros _. unfold time_sleep.
    by destruct (d <? 0); [|destruct (sleep_refused d)].
Qed.

Lemma events_retry_loop text lang (p : Path) attempts d :
  events_at_most (3 * length attempts) (retry_loop text lang p attempts d).
Proof.
  unfold retry_loop.
  replace (3 * length attempts)%nat with (3 * length attempts + 0)%nat by lia.
  apply events_at_most_bind; [|by intros [s|r]].
  revert d. induction attempts as [|i attempts IH]; intros d; [done|].
  rewrite for_in_cons.
  replace (3 * length (i :: attempts))%nat
    with (3 + 3 * length attempts)%nat by (simpl; lia).
  apply events_at_most_bind; [apply events_attempt_body|].
  intros [s|r]; [apply IH|done].
Qed.

Lemma events_process_pdf pdf out audio lang d m :
  events_at_most (4 + 3 * Z.to_nat m) (process_pdf pdf out audio lang d m).
Proof.
  unfold process_pdf, extract_text_from_pdf_with_ocr.
  destruct (pdfplumber_open pdf) as [e|pages]; [done|].
  change (Ret ?text ≫= ?f) with (f text). cbv beta.
  destruct (truthy (strip (fold_left page_step pages []))); simpl negb; cbv iota;
    [|done].
  apply (events_at_most_bind (save_text_to_file _ _) _ 1 (3 + 3 * Z.to_nat m));
    [done|]. intros _.
  apply events_at_most_mono with (2 + 3 * Z.to_nat m + 1)%nat; [lia|].
  apply (events_at_most_bind (convert_text_to_speech _ _ _ _ _ _) _
           (2 + 3 * Z.to_nat m) 1); [|done].
  unfold convert_text_to_speech.
  apply (events_at_most_bind (path_exists _) _ 1 (1 + 3 * Z.to_nat m)); [done|].
  intros [|].
  - apply events_at_most_mono with 1%nat; [lia|done].
  - apply events_at_most_mono with (3 * length (range m))%nat.
    + unfold range. rewrite length_seqZ. lia.
    + apply events_retry_loop.
Qed.

Lemma pool_step_budget budgets st st' :
  Forall2 (λ n t, events_at_most n t) budgets st.1 →
  pool_step st st' →
  ∃ budgets', Forall2 (λ n t, events_at_most n t) budgets' st'.1 ∧
              sum_list budgets = S (sum_list budgets').
Proof.
  intros Hall Hstep. destruct Hstep as [X pre op k post w]. simpl in *.
  apply Forall2_app_inv_r in Hall as (b1 & b' & Hpre & Hall & ->).
  apply Forall2_cons_inv_r in Hall as (n & b2 & Hn & Hpost & ->).
  simpl in Hn. destruct n as [|n]; [done|].
  exists (b1 ++ n :: b2). split.
  - apply Forall2_app; [done|]. by constructor.
  - rewrite !sum_list_with_app. simpl. lia.
Qed.

(** X18.  A parallel run cannot go on for ever: [process_pdf] performs at
    most [4 + 3 * max_retries] events (the write of the text, the file
    check, at most three per attempt, the notices), so that any sequence of
    steps of the pool for [n] documents has at most
    [n * (4 + 3 * max_retries)] steps. *)
Theorem main_parallel_steps_bounded
    (pdfs : list Path) (out audio : Path) (lang : str) (d m : Z)
    (w : World) (steps : nat) (st : list (Prog unit) * World) :
  nsteps pool_step steps
    ((λ pdf, process_pdf pdf out audio lang d m) <$> pdfs, w) st →
  (steps ≤ length pdfs * (4 + 3 * Z.to_nat m))%nat.
Proof.
  intros Hsteps.
  assert (Hgen : ∀ budgets st0,
    Forall2 (λ n t, events_at_most n t) budgets st0.1 →
    nsteps pool_step steps st0 st → (steps ≤ sum_list budgets)%nat).
  { clear. intros budgets st0 Hall Hsteps. revert budgets Hall.
    induction Hsteps as [|n st0 st1 st2 Hstep _ IH]; intros budgets Hall; [lia|].
    destruct (pool_step_budget _ _ _ Hall Hstep) as (budgets' & Hall' & ->).
    specialize (IH _ Hall'). lia. }
  pose proof (Hgen (replicate (length pdfs) (4 + 3 * Z.to_nat m)%nat)
                   ((λ pdf, process_pdf pdf out audio lang d m) <$> pdfs, w)) as Hb.
  rewrite sum_list_replicate in Hb. apply Hb; [|done]. simpl.
  clear. induction pdfs as [|pdf pdfs IH]; simpl; constructor; [|done].
  apply events_process_pdf.
Qed.

End Program.

(** C2.  When [<folder>/<filename>.mp3] exists, [convert_text_to_speech]
    makes no synthesis attempt (and takes no sleep) and returns that path.
    The outcome is the same for any other text, language, delay and retry
    bound, and for any other content-hash function: the decision reads the
    file name and the folder only. *)
Theorem convert_cache_hit_by_filename `{env : Collaborators}
    (text filename : str) (folder : Path) (lang : str) (d m : Z) (w : World) :
  let path := path_div folder (filename ++ lit ".mp3") in
  is_Some (files w !! path) →
  run (convert_text_to_speech text filename folder lang d m) w =
    (inr path, log_notice (UsingExisting filename) w) ∧
  tts_calls (log_notice (UsingExisting filename) w) = tts_calls w ∧
  sleeps (log_notice (UsingExisting filename) w) = sleeps w ∧
  files (log_notice (UsingExisting filename) w) = files w ∧
  (∀ text' lang' d' m',
     run (convert_text_to_speech text' filename folder lang' d' m') w =
     run (convert_text_to_speech text filename folder lang d m) w) ∧
  (∀ digest,
     run (env := with_md5 env digest)
         (convert_text_to_speech (env := with_md5 env digest)
            text filename folder lang d m) w =
     run (convert_text_to_speech text filename folder lang d m) w).
Proof.
  intros path Hex.
  assert (Hrun : ∀ text' lang' d' m',
    run (convert_text_to_speech text' filename folder lang' d' m') w =
    (inr path, log_notice (UsingExisting filename) w)).
  { intros. by apply convert_cached. }
  split; [apply Hrun|]. do 3 (split; [done|]). split.
  - intros. by rewrite !Hrun.
  - intros digest. rewrite Hrun. unfold convert_text_to_speech. simpl.
    fold path. by rewrite bool_decide_eq_true_2.
Qed.

(** ** Closed instances *)


Lemma process_pdf_blank_creates_nothing_witness :
  let E := Sample.env Sample.served in
  let blank := [0x20; 0x0A; 0x3000]%N in
  extract_text_from_pdf_with_ocr (env:=E) (lit "in/b.pdf") = Ret blank ∧
  forallb isspace blank = true ∧
  ∃ w', run (env:=E)
          (process_pdf (env:=E) (lit "in/b.pdf") (lit "out") (lit "audio") (lit "en") 5 10)
          Sample.fresh = (inr (), w') ∧
        files w' = ∅ ∧ tts_calls w' = [] ∧ sleeps w' = [].
Proof.
  intros E blank. split; [reflexivity|]. split; [reflexivity|].
  destruct (process_pdf_blank_creates_nothing (env:=E)
              (lit "in/b.pdf") (lit "out") (lit "audio") (lit "en") 5 10
              blank Sample.fresh) as (w' & Hrun & _ & Hf & Hc & Hs);
    [reflexivity|reflexivity|].
  exists w'. split; [exact Hrun|]. split; [exact Hf|]. split; [exact Hc|exact Hs].
Defined.

Lemma convert_cache_hit_by_filename_witness :
  let E := Sample.env Sample.always_limited in
  let path := lit "audio/a.mp3" in
  is_Some (files Sample.with_audio !! path) ∧
  run (env:=E) (convert_text_to_speech (env:=E) (lit "new text") (lit "a") (lit "audio")
                  (lit "en") 5 10) Sample.with_audio
    = (inr path, log_notice (UsingExisting (lit "a")) Sample.with_audio) ∧
  run (env:=E) (is_cached (env:=E) (generate_cache_key (env:=E) (lit "new text"))
                  (lit "audio")) Sample.with_audio
    = (inr false, Sample.with_audio).
Proof.
  intros E path.
  assert (Hex : is_Some (files Sample.with_audio !! path))
    by (exists (AudioFile (lit "old")); reflexivity).
  split; [exact Hex|]. split; [|reflexivity].
  exact (proj1 (convert_cache_hit_by_filename (env:=E) (lit "new text") (lit "a")
                  (lit "audio") (lit "en") 5 10 Sample.with_audio Hex)).
Defined.

Lemma convert_succeeds_after_rate_limits_witness :
  let E := Sample.env (Sample.limited_then_served 2) in
  let path := lit "audio/a.mp3" in
  files Sample.fresh !! path = None ∧
  sleeps_accepted (env:=E) 5 2 ∧
  rate_limited_from (env:=E) (lit "hi") (lit "en") 0 2 ∧
  gtts (Collaborators:=E) 2 (lit "hi") (lit "en") = inr (lit "mp3:hi") ∧
  ∃ w',
    run (env:=E) (convert_text_to_speech (env:=E) (lit "hi") (lit "a") (lit "audio")
                    (lit "en") 5 10) Sample.fresh = (inr path, w') ∧
    sleeps w' = [5; 10] ∧
    tts_calls w' = replicate 3 (lit "hi", lit "en") ∧
    files w' = {[ path := AudioFile (lit "mp3:hi") ]}.
Proof.
  intros E path.
  assert (Hacc : sleeps_accepted (env:=E) 5 2).
  { intros i Hi. do 2 (destruct i as [|i]; [split; [by vm_compute|reflexivity]|]). lia. }
  assert (Hrl : rate_limited_from (env:=E) (lit "hi") (lit "en") 0 2).
  { intros i Hi. exists Sample.too_many_requests.
    destruct i as [|[|i]]; [split; reflexivity|split; reflexivity|lia]. }
  split; [reflexivity|]. split; [exact Hacc|]. split; [exact Hrl|].
  split; [reflexivity|].
  destruct (convert_succeeds_after_rate_limits (env:=E) (lit "hi") (lit "a")
              (lit "audio") (lit "en") 5 10 3 Sample.fresh (lit "mp3:hi"))
    as (w' & Hrun & Hs & Hc & Hf);
    [reflexivity|lia|lia|exact Hacc|exact Hrl|reflexivity|].
  exists w'. split; [exact Hrun|]. split; [exact Hs|]. split; [exact Hc|exact Hf].
Defined.

(** C3 as stated fails for a negative delay: the service is rate limited
    once and would then serve ([N = 2 <= max_retries = 10]), but
    [time.sleep(-1)] raises [ValueError] and the call does not return. *)
Lemma convert_negative_delay_does_not_return :
  let E := Sample.env (Sample.limited_then_served 1) in
  let path := lit "audio/a.mp3" in
  let call := convert_text_to_speech (env:=E) (lit "hi") (lit "a") (lit "audio")
                (lit "en") (-1) 10 in
  files Sample.fresh !! path = None ∧
  rate_limited_from (env:=E) (lit "hi") (lit "en") 0 1 ∧
  gtts (Collaborators:=E) 1 (lit "hi") (lit "en") = inr (lit "mp3:hi") ∧
  (run (env:=E) call Sample.fresh).1 =
    inl (ValueError (lit "sleep length must be non-negative")) ∧
  sleeps (run (env:=E) call Sample.fresh).2 = [] ∧
  ¬ ∃ w', run (env:=E) call Sample.fresh = (inr path, w').
Proof.
  intros E path call. split; [reflexivity|]. split.
  { intros i Hi. exists Sample.too_many_requests.
    destruct i as [|i]; [split; reflexivity|lia]. }
  split; [reflexivity|]. split; [reflexivity|]. split; [reflexivity|].
  intros [w' Hw']. apply (f_equal fst) in Hw'. vm_compute in Hw'. discriminate.
Qed.

Lemma convert_retry_exhaustion_witness :
  let E := Sample.env Sample.always_limited in
  let path := lit "audio/a.mp3" in
  let call := convert_text_to_speech (env:=E) (lit "hi") (lit "a") (lit "audio")
                (lit "en") 5 3 in
  files Sample.fresh !! path = None ∧
  sleeps_accepted (env:=E) 5 3 ∧
  rate_limited_from (env:=E) (lit "hi") (lit "en") 0 3 ∧
  (∃ w',
    run (env:=E) call Sample.fresh
      = (inl (RuntimeError (lit "Failed to convert text to speech after retries")), w') ∧
    tts_calls w' = replicate 3 (lit "hi", lit "en") ∧
    sleeps w' = [5; 10; 20] ∧
    left_by_failure (env:=E) (lit "hi") (lit "en") (files w' !! path)) ∧
  files (run (env:=E) call Sample.fresh).2 !! path = Some (AudioFile []).
Proof.
  intros E path call.
  assert (Hacc : sleeps_accepted (env:=E) 5 3).
  { intros i Hi. do 3 (destruct i as [|i]; [split; [by vm_compute|reflexivity]|]). lia. }
  assert (Hrl : rate_limited_from (env:=E) (lit "hi") (lit "en") 0 3).
  { intros i Hi. exists Sample.too_many_requests. split; reflexivity. }
  split; [reflexivity|]. split; [exact Hacc|]. split; [exact Hrl|].
  split; [|reflexivity].
  destruct (convert_retry_exhaustion (env:=E) (lit "hi") (lit "a")
              (lit "audio") (lit "en") 5 3 Sample.fresh)
    as (w' & Hrun & Hc & Hs & _ & Hleft & _);
    [reflexivity|exact Hacc|exact Hrl|].
  exists w'. split; [exact Hrun|]. split; [exact Hc|]. split; [exact Hs|exact Hleft].
Defined.

(** C4 as stated fails for a negative delay: every attempt is rate limited,
    but after the first one [time.sleep(-1)] raises [ValueError]; one
    attempt is made, not [max_retries = 3], and the error raised is not the
    terminal one. *)
Lemma convert_negative_delay_stops_after_one_attempt :
  let E := Sample.env Sample.always_limited in
  let call := convert_text_to_speech (env:=E) (lit "hi") (lit "a") (lit "audio")
                (lit "en") (-1) 3 in
  files Sample.fresh !! lit "audio/a.mp3" = None ∧
  (∀ n, ∃ e, gtts (Collaborators:=E) n (lit "hi") (lit "en") = inl e ∧
             rate_limited e = true) ∧
  (run (env:=E) call Sample.fresh).1 =
    inl (ValueError (lit "sleep length must be non-negative")) ∧
  tts_calls (run (env:=E) call Sample.fresh).2 = [(lit "hi", lit "en")] ∧
  (run (env:=E) call Sample.fresh).1 ≠
    inl (RuntimeError (lit "Failed to convert text to speech after retries")).
Proof.
  intros E call. split; [reflexivity|]. split.
  { intros n. exists Sample.too_many_requests. split; reflexivity. }
  split; [reflexivity|]. split; [reflexivity|]. vm_compute. discriminate.
Qed.

Lemma convert_other_error_propagates_witness :
  let E := Sample.env (Sample.limited_then_forbidden 1) in
  let path := lit "audio/a.mp3" in
  let call := convert_text_to_speech (env:=E) (lit "hi") (lit "a") (lit "audio")
                (lit "en") 5 10 in
  files Sample.fresh !! path = None ∧
  sleeps_accepted (env:=E) 5 1 ∧
  rate_limited_from (env:=E) (lit "hi") (lit "en") 0 1 ∧
  gtts (Collaborators:=E) 1 (lit "hi") (lit "en") = inl Sample.forbidden ∧
  rate_limited Sample.forbidden = false ∧
  (∃ w',
    run (env:=E) call Sample.fresh = (inl Sample.forbidden, w') ∧
    sleeps w' = [5] ∧
    tts_calls w' = replicate 2 (lit "hi", lit "en") ∧
    left_by_failure (env:=E) (lit "hi") (lit "en") (files w' !! path)) ∧
  files (run (env:=E) call Sample.fresh).2 !! path = Some (AudioFile []).
Proof.
  intros E path call.
  assert (Hacc : sleeps_accepted (env:=E) 5 1).
  { intros i Hi. destruct i as [|i]; [split; [by vm_compute|reflexivity]|lia]. }
  assert (Hrl : rate_limited_from (env:=E) (lit "hi") (lit "en") 0 1).
  { intros i Hi. exists Sample.too_many_requests.
    destruct i as [|i]; [split; reflexivity|lia]. }
  split; [reflexivity|]. split; [exact Hacc|]. split; [exact Hrl|].
  split; [reflexivity|]. split; [reflexivity|]. split; [|reflexivity].
  destruct (convert_other_error_propagates (env:=E) (lit "hi") (lit "a")
              (lit "audio") (lit "en") 5 10 1 Sample.fresh Sample.forbidden)
    as (w' & Hrun & Hs & Hc & _ & Hleft);
    [reflexivity|lia|exact Hacc|exact Hrl|reflexivity|reflexivity|].
  exists w'. split; [exact Hrun|]. split; [exact Hs|]. split; [exact Hc|exact Hleft].
Defined.

Lemma convert_no_retries_raises_witness :
  let E := Sample.env Sample.served in
  (-2 ≤ 0) ∧
  files Sample.fresh !! lit "audio/a.mp3" = None ∧
  run (env:=E) (convert_text_to_speech (env:=E) (lit "hi") (lit "a") (lit "audio")
                  (lit "en") 5 (-2)) Sample.fresh
    = (inl (RuntimeError (lit "Failed to convert text to speech after retries")),
       Sample.fresh).
Proof.
  intros E. split; [lia|]. split; [reflexivity|].
  apply (convert_no_retries_raises (env:=E)); [lia|reflexivity].
Defined.

Lemma extract_concatenates_page_results_witness :
  let E := Sample.env Sample.served in
  (∀ im m, image_mode (Collaborators:=E) (image_convert (Collaborators:=E) im m) = m) ∧
  run (env:=E) (extract_text_from_pdf_with_ocr (env:=E) (lit "in/a.pdf")) Sample.fresh
    = (inr (lit "Hello world"), Sample.fresh).
Proof.
  intros E. split; [reflexivity|].
  destruct (extract_concatenates_page_results (env:=E) (lit "in/a.pdf")
              [mkPage (Some (lit "Hello ")) (lit "RGB", []);
               mkPage None (lit "RGBA", lit "world")] Sample.fresh)
    as (_ & _ & _ & Htwo); [reflexivity|reflexivity|].
  assert (Hne : lit "Hello " ≠ []) by discriminate.
  exact (Htwo (mkPage (Some (lit "Hello ")) (lit "RGB", []))
              (mkPage None (lit "RGBA", lit "world")) (lit "Hello ")
              eq_refl eq_refl Hne (or_introl eq_refl)).
Defined.

Lemma process_pdf_text_file_survives_failure_witness :
  let E := Sample.env (Sample.limited_then_forbidden 0) in
  let call := process_pdf (env:=E) (lit "in/a.pdf") (lit "out") (lit "audio")
                (lit "en") 5 10 in
  let w' := (run (env:=E) call Sample.fresh).2 in
  extract_text_from_pdf_with_ocr (env:=E) (lit "in/a.pdf") = Ret (lit "Hello world") ∧
  lit "Hello world" ≠ [] ∧
  run (env:=E) call Sample.fresh = (inl Sample.forbidden, w') ∧
  files w' !! lit "out/a.txt" = Some (TextFile (lit "Hello world")) ∧
  left_by_failure (env:=E) (lit "Hello world") (lit "en")
    (files w' !! lit "audio/a.mp3") ∧
  ∃ w'', run (env:=E) call w' = (inr (), w'') ∧ tts_calls w'' = tts_calls w'.
Proof.
  intros E call w'.
  assert (Hne : lit "Hello world" ≠ []) by discriminate.
  split; [reflexivity|]. split; [exact Hne|]. split; [reflexivity|].
  destruct (process_pdf_text_file_survives_failure (env:=E) (lit "in/a.pdf")
              (lit "out") (lit "audio") (lit "en") 5 10 (lit "Hello world")
              Sample.fresh Sample.forbidden w')
    as (_ & _ & Htxt & Hmp3 & _ & Hnext); [reflexivity|exact Hne|reflexivity|].
  split; [exact Htxt|]. split; [exact Hmp3|].
  destruct (Hnext (ex_intro _ (AudioFile []) eq_refl) (lit "en") 5 10)
    as (w'' & Hrun & Hc & _).
  exists w''. split; [exact Hrun|exact Hc].
Defined.

(** C10 as stated fails: the service refuses the request for [a.pdf], the
    call raises, the text file is on disk, and so is an audio file, the
    empty one that [save] had opened; a second call takes it for the audio
    and makes no attempt. *)
Lemma process_pdf_failed_synthesis_leaves_audio_file :
  let E := Sample.env (Sample.limited_then_forbidden 0) in
  let call := process_pdf (env:=E) (lit "in/a.pdf") (lit "out") (lit "audio")
                (lit "en") 5 10 in
  let w' := (run (env:=E) call Sample.fresh).2 in
  extract_text_from_pdf_with_ocr (env:=E) (lit "in/a.pdf") = Ret (lit "Hello world") ∧
  lit "Hello world" ≠ [] ∧
  files Sample.fresh = ∅ ∧
  run (env:=E) call Sample.fresh = (inl Sample.forbidden, w') ∧
  files w' !! lit "out/a.txt" = Some (TextFile (lit "Hello world")) ∧
  files w' !! lit "audio/a.mp3" = Some (AudioFile []) ∧
  files w' !! lit "audio/a.mp3" ≠ None ∧
  run (env:=E) call w' =
    (inr (), log_notice (Processed (lit "a.pdf"))
               (log_notice (UsingExisting (lit "a")) w')).
Proof.
  intros E call w'. repeat split; try reflexivity; discriminate.
Qed.

Lemma second_run_makes_no_synthesis_call_witness :
  let E := Sample.env Sample.served in
  let pdfs := [lit "in/a.pdf"; lit "in/b.pdf"; lit "in/c.pdf"] in
  let batch := main_sequential (env:=E) pdfs (lit "out") (lit "audio") (lit "en") 5 10 in
  let w1 := (run (env:=E) batch Sample.fresh).2 in
  run (env:=E) batch Sample.fresh = (inr (), w1) ∧
  length (tts_calls w1) = 2%nat ∧
  ∃ w2, run (env:=E) batch w1 = (inr (), w2) ∧ tts_calls w2 = tts_calls w1.
Proof.
  intros E pdfs batch w1. split; [reflexivity|]. split; [reflexivity|].
  destruct (second_run_makes_no_synthesis_call (env:=E) pdfs (lit "out") (lit "audio")
              (lit "en") 5 10 (lit "out") (lit "en") 5 10 Sample.fresh w1)
    as [(w2 & Hrun & Hc & _) _]; [reflexivity|].
  exists w2. split; [exact Hrun|exact Hc].
Defined.

(** A parallel run of [a.pdf] and [c.pdf] in which the events of the two
    calls alternate and the audio of [c.pdf] is requested first. *)
Lemma parallel_run_same_files_as_sequential_witness :
  let E := Sample.env Sample.served in
  let pdfs := [lit "in/a.pdf"; lit "in/c.pdf"] in
  let w_seq :=
    (run (env:=E) (main_sequential (env:=E) pdfs (lit "out") (lit "audio") (lit "en") 5 10)
         Sample.fresh).2 in
  let st :=
    run_schedule (env:=E) [0; 1; 1; 0; 1; 0; 1; 0]%nat
      ((λ pdf, process_pdf (env:=E) pdf (lit "out") (lit "audio") (lit "en") 5 10) <$> pdfs,
       Sample.fresh) in
  run (env:=E) (main_sequential (env:=E) pdfs (lit "out") (lit "audio") (lit "en") 5 10)
      Sample.fresh = (inr (), w_seq) ∧
  main_parallel (env:=E) pdfs (lit "out") (lit "audio") (lit "en") 5 10
                Sample.fresh st.1 st.2 ∧
  Forall (λ c, c = Ret ()) st.1 ∧
  tts_calls st.2 ≠ tts_calls w_seq ∧
  dom (files st.2) = dom (files w_seq).
Proof.
  intros E pdfs w_seq st.
  assert (Hret : st.1 = [Ret (); Ret ()]) by reflexivity.
  assert (Hall : Forall (λ c, c = Ret ()) st.1).
  { rewrite Hret. repeat constructor. }
  assert (Hpar : main_parallel (env:=E) pdfs (lit "out") (lit "audio") (lit "en") 5 10
                   Sample.fresh st.1 st.2).
  { split.
    - rewrite <- surjective_pairing. apply run_schedule_steps.
    - rewrite Hret. repeat constructor. }
  split; [reflexivity|]. split; [exact Hpar|]. split; [exact Hall|].
  split; [vm_compute; discriminate|].
  exact (proj1 (parallel_run_same_files_as_sequential (env:=E) pdfs (lit "out")
                  (lit "audio") (lit "en") 5 10 Sample.fresh w_seq st.1 st.2
                  eq_refl Hpar Hall)).
Defined.

(** *** Instances of the further properties *)

Lemma convert_attempts_bounded_witness :
  let E := Sample.env (Sample.limited_then_served 2) in
  let res := run (env:=E) (convert_text_to_speech (env:=E) (lit "hi") (lit "a")
                             (lit "audio") (lit "en") 5 10) Sample.fresh in
  ∃ n k : nat,
    (n ≤ Z.to_nat 10)%nat ∧
    tts_calls res.2 = tts_calls Sample.fresh ++ replicate n (lit "hi", lit "en") ∧
    sleeps res.2 = sleeps Sample.fresh ++ backoff_delays 5 k ∧
    (k ≤ n ≤ S k)%nat.
Proof.
  intros E res.
  apply (convert_attempts_bounded (env:=E) (lit "hi") (lit "a") (lit "audio")
           (lit "en") 5 10 Sample.fresh res.1 res.2).
  reflexivity.
Defined.

Lemma convert_outcome_on_disk_witness :
  let E := Sample.env (Sample.limited_then_forbidden 1) in
  let res := run (env:=E) (convert_text_to_speech (env:=E) (lit "hi") (lit "c")
                             (lit "audio") (lit "en") 5 10) Sample.with_audio in
  res.1 = inl Sample.forbidden ∧
  files Sample.with_audio !! lit "audio/c.mp3" = None ∧
  left_by_failure (env:=E) (lit "hi") (lit "en") (files res.2 !! lit "audio/c.mp3") ∧
  files res.2 !! lit "audio/c.mp3" = Some (AudioFile []) ∧
  files res.2 !! lit "audio/a.mp3" = Some (AudioFile (lit "old")).
Proof.
  intros E res.
  destruct (convert_outcome_on_disk (env:=E) (lit "hi") (lit "c") (lit "audio")
              (lit "en") 5 10 Sample.with_audio (inl Sample.forbidden) res.2)
    as [[Hnone Hleft] Hother]; [reflexivity|].
  split; [reflexivity|]. split; [exact Hnone|]. split; [exact Hleft|].
  split; [reflexivity|].
  etrans; [apply (Hother (lit "audio/a.mp3")); discriminate|reflexivity].
Defined.

Lemma convert_exhaustion_total_sleep_witness :
  let E := Sample.env Sample.always_limited in
  files Sample.fresh !! lit "audio/a.mp3" = None ∧
  sleeps_accepted (env:=E) 5 10 ∧
  rate_limited_from (env:=E) (lit "hi") (lit "en") 0 10 ∧
  total_sleep
    (sleeps (run (env:=E) (convert_text_to_speech (env:=E) (lit "hi") (lit "a")
                             (lit "audio") (lit "en") 5 10) Sample.fresh).2)
  = 5115.
Proof.
  intros E.
  assert (Hacc : sleeps_accepted (env:=E) 5 (Z.to_nat 10)).
  { intros i Hi.
    do 10 (destruct i as [|i]; [split; [by vm_compute|reflexivity]|]).
    simpl in Hi. lia. }
  assert (Hrl : rate_limited_from (env:=E) (lit "hi") (lit "en") 0 10).
  { intros i Hi. exists Sample.too_many_requests. split; reflexivity. }
  split; [reflexivity|]. split; [exact Hacc|]. split; [exact Hrl|].
  etrans; [|reflexivity].
  apply (convert_exhaustion_total_sleep (env:=E) (lit "hi") (lit "a") (lit "audio")
           (lit "en") 5 10 Sample.fresh); [reflexivity|lia|exact Hacc|exact Hrl].
Defined.



Lemma convert_refused_delay_raises_witness :
  let E := Sample.env Sample.always_limited in
  let call := convert_text_to_speech (env:=E) (lit "hi") (lit "a") (lit "audio")
                (lit "en") 5 40 in
  files Sample.fresh !! lit "audio/a.mp3" = None ∧
  sleeps_accepted (env:=E) 5 31 ∧
  sleep_refused (Collaborators:=E) (5 * 2 ^ 31) =
    Some (OtherException (lit "OverflowError")
            (lit "timestamp too large to convert to C _PyTime_t")) ∧
  rate_limited_from (env:=E) (lit "hi") (lit "en") 0 32 ∧
  ∃ w',
    run (env:=E) call Sample.fresh =
      (inl (OtherException (lit "OverflowError")
              (lit "timestamp too large to convert to C _PyTime_t")), w') ∧
    tts_calls w' = replicate 32 (lit "hi", lit "en") ∧
    sleeps w' = backoff_delays 5 31.
Proof.
  intros E call.
  assert (Hacc : sleeps_accepted (env:=E) 5 31).
  { intros i Hi.
    do 31 (destruct i as [|i]; [split; [by vm_compute|reflexivity]|]). lia. }
  assert (Hrl : rate_limited_from (env:=E) (lit "hi") (lit "en") 0 32).
  { intros i Hi. exists Sample.too_many_requests. split; reflexivity. }
  split; [reflexivity|]. split; [exact Hacc|]. split; [reflexivity|].
  split; [exact Hrl|].
  destruct (convert_refused_delay_raises (env:=E) (lit "hi") (lit "a")
              (lit "audio") (lit "en") 5 40 31 Sample.fresh
              (OtherException (lit "OverflowError")
                 (lit "timestamp too large to convert to C _PyTime_t")))
    as (w' & Hrun & Hc & Hs & _);
    [reflexivity|lia|lia|exact Hacc|reflexivity|exact Hrl|].
  exists w'. split; [exact Hrun|]. split; [exact Hc|exact Hs].
Defined.

Lemma process_pdf_touches_only_its_outputs_witness :
  let E := Sample.env Sample.served in
  let res := run (env:=E) (process_pdf (env:=E) (lit "in/c.pdf") (lit "out")
                             (lit "audio") (lit "en") 5 10) Sample.with_audio in
  lit "audio/a.mp3" ≠ text_path (env:=E) (lit "out") (lit "in/c.pdf") ∧
  lit "audio/a.mp3" ≠ audio_path (env:=E) (lit "audio") (lit "in/c.pdf") ∧
  files res.2 !! lit "audio/a.mp3" = Some (AudioFile (lit "old")).
Proof.
  intros E res.
  assert (H1 : lit "audio/a.mp3" ≠ text_path (env:=E) (lit "out") (lit "in/c.pdf"))
    by discriminate.
  assert (H2 : lit "audio/a.mp3" ≠ audio_path (env:=E) (lit "audio") (lit "in/c.pdf"))
    by discriminate.
  split; [exact H1|]. split; [exact H2|].
  etrans; [|reflexivity].
  apply (process_pdf_touches_only_its_outputs (env:=E) (lit "in/c.pdf") (lit "out")
           (lit "audio") (lit "en") 5 10 Sample.with_audio res.1 res.2
           (lit "audio/a.mp3")); [reflexivity|exact H1|exact H2].
Defined.

Lemma process_pdf_returns_with_both_outputs_witness :
  let E := Sample.env (Sample.limited_then_served 1) in
  let w' := (run (env:=E) (process_pdf (env:=E) (lit "in/a.pdf") (lit "out")
                             (lit "audio") (lit "en") 5 10) Sample.fresh).2 in
  extract_text_from_pdf_with_ocr (env:=E) (lit "in/a.pdf") = Ret (lit "Hello world") ∧
  strip (lit "Hello world") ≠ [] ∧
  files w' !! lit "out/a.txt" = Some (TextFile (lit "Hello world")) ∧
  is_Some (files w' !! lit "audio/a.mp3") ∧
  last (stdout w') = Some (Processed (lit "a.pdf")).
Proof.
  intros E w'.
  assert (Hs : strip (lit "Hello world") ≠ []) by (vm_compute; discriminate).
  split; [reflexivity|]. split; [exact Hs|].
  apply (process_pdf_returns_with_both_outputs (env:=E) (lit "in/a.pdf") (lit "out")
           (lit "audio") (lit "en") 5 10 (lit "Hello world") Sample.fresh w');
    [reflexivity|exact Hs|reflexivity].
Defined.

Lemma process_pdf_first_run_witness :
  let E := Sample.env Sample.served in
  files Sample.fresh !! lit "audio/a.mp3" = None ∧
  gtts (Collaborators:=E) 0 (lit "Hello world") (lit "en")
    = inr (lit "mp3:Hello world") ∧
  run (env:=E) (process_pdf (env:=E) (lit "in/a.pdf") (lit "out") (lit "audio")
                  (lit "en") 5 10) Sample.fresh
  = (inr (),
     mkWorld (<[lit "audio/a.mp3" := AudioFile (lit "mp3:Hello world")]>
                (<[lit "out/a.txt" := TextFile (lit "Hello world")]> ∅))
             [(lit "Hello world", lit "en")] [] [Processed (lit "a.pdf")]).
Proof.
  intros E. split; [reflexivity|]. split; [reflexivity|].
  apply (process_pdf_first_run (env:=E) (lit "in/a.pdf") (lit "out") (lit "audio")
           (lit "en") 5 10 (lit "Hello world") (lit "mp3:Hello world") Sample.fresh);
    [reflexivity|vm_compute; discriminate|discriminate|reflexivity|lia|reflexivity].
Defined.

Lemma process_pdf_keeps_stale_audio_witness :
  let E := Sample.env Sample.served in
  files Sample.with_audio !! lit "audio/a.mp3" = Some (AudioFile (lit "old")) ∧
  ∃ w',
    run (env:=E) (process_pdf (env:=E) (lit "in/a.pdf") (lit "out") (lit "audio")
                    (lit "en") 5 10) Sample.with_audio = (inr (), w') ∧
    files w' !! lit "out/a.txt" = Some (TextFile (lit "Hello world")) ∧
    files w' !! lit "audio/a.mp3" = Some (AudioFile (lit "old")) ∧
    tts_calls w' = [].
Proof.
  intros E. split; [reflexivity|].
  destruct (process_pdf_keeps_stale_audio (env:=E) (lit "in/a.pdf") (lit "out")
              (lit "audio") (lit "en") 5 10 (lit "Hello world")
              (AudioFile (lit "old")) Sample.with_audio)
    as (w' & Hrun & Hfiles & Hold & Hcalls);
    [reflexivity|vm_compute; discriminate|discriminate|reflexivity|].
  exists w'. split; [exact Hrun|]. split; [|split; [exact Hold|exact Hcalls]].
  rewrite Hfiles. reflexivity.
Defined.

Lemma process_pdf_again_changes_nothing_witness :
  let E := Sample.env (Sample.limited_then_served 1) in
  let call := process_pdf (env:=E) (lit "in/a.pdf") (lit "out") (lit "audio")
                          (lit "en") 5 10 in
  let w1 := (run (env:=E) call Sample.fresh).2 in
  run (env:=E) call Sample.fresh = (inr (), w1) ∧
  ∃ w2, run (env:=E) call w1 = (inr (), w2) ∧ files w2 = files w1 ∧
        tts_calls w2 = tts_calls w1 ∧ sleeps w2 = sleeps w1.
Proof.
  intros E call w1. split; [reflexivity|].
  apply (process_pdf_again_changes_nothing (env:=E) (lit "in/a.pdf") (lit "out")
           (lit "audio") (lit "en") 5 10 (lit "en") 5 10 Sample.fresh w1).
  reflexivity.
Defined.

Lemma process_pdf_skips_whitespace_pages_witness :
  let E := Sample.env Sample.served in
  let pages := [mkPage (Some [0x20; 0x0A; 0x3000]%N) (lit "RGB", [])] in
  pdfplumber_open (Collaborators:=E) (lit "in/b.pdf") = inr pages ∧
  run (env:=E) (process_pdf (env:=E) (lit "in/b.pdf") (lit "out") (lit "audio")
                  (lit "en") 5 10) Sample.fresh
  = (inr (), log_notice (NoTextFound (lit "b.pdf")) Sample.fresh).
Proof.
  intros E pages. split; [reflexivity|].
  apply (process_pdf_skips_whitespace_pages (env:=E) (lit "in/b.pdf") (lit "out")
           (lit "audio") (lit "en") 5 10 pages Sample.fresh); [reflexivity|].
  constructor; [|constructor].
  exists [0x20; 0x0A; 0x3000]%N. split; [reflexivity|]. split; [discriminate|reflexivity].
Defined.

Lemma extract_splits_at_page_boundary_witness :
  let E := Sample2.env Sample.served in
  pdfplumber_open (Collaborators:=E) (lit "in/ac.pdf")
    = inr ([mkPage (Some (lit "Hello ")) (lit "RGB", []);
            mkPage None (lit "RGBA", lit "world")]
           ++ [mkPage (Some (lit "Bye")) (lit "RGB", [])]) ∧
  ∃ text1 text2,
    extract_text_from_pdf_with_ocr (env:=E) (lit "in/a.pdf") = Ret text1 ∧
    extract_text_from_pdf_with_ocr (env:=E) (lit "in/c.pdf") = Ret text2 ∧
    extract_text_from_pdf_with_ocr (env:=E) (lit "in/ac.pdf") = Ret (text1 ++ text2).
Proof.
  intros E. split; [reflexivity|].
  apply (extract_splits_at_page_boundary (env:=E) (lit "in/ac.pdf") (lit "in/a.pdf")
           (lit "in/c.pdf")
           [mkPage (Some (lit "Hello ")) (lit "RGB", []);
            mkPage None (lit "RGBA", lit "world")]
           [mkPage (Some (lit "Bye")) (lit "RGB", [])]); reflexivity.
Defined.

Lemma main_sequential_stops_at_first_error_witness :
  let E := Sample.env Sample.served in
  let unreadable := OtherException (lit "PDFSyntaxError") (lit "No /Root object!") in
  let w1 := (run (env:=E) (main_sequential (env:=E) [lit "in/a.pdf"] (lit "out")
                             (lit "audio") (lit "en") 5 10) Sample.fresh).2 in
  run (env:=E) (process_pdf (env:=E) (lit "in/x.pdf") (lit "out") (lit "audio")
                  (lit "en") 5 10) w1 = (inl unreadable, w1) ∧
  run (env:=E) (main_sequential (env:=E) ([lit "in/a.pdf"] ++ lit "in/x.pdf" :: [lit "in/c.pdf"])
                  (lit "out") (lit "audio") (lit "en") 5 10) Sample.fresh
  = (inl unreadable, w1) ∧
  files w1 !! lit "out/c.txt" = None.
Proof.
  intros E unreadable w1. split; [reflexivity|]. split; [|reflexivity].
  apply (main_sequential_stops_at_first_error (env:=E) [lit "in/a.pdf"]
           [lit "in/c.pdf"] (lit "in/x.pdf") (lit "out") (lit "audio") (lit "en")
           5 10 Sample.fresh w1 w1 unreadable); reflexivity.
Defined.

Lemma main_parallel_outputs_witness :
  let E := Sample.env Sample.served in
  let pdfs := [lit "in/a.pdf"; lit "in/x.pdf"; lit "in/c.pdf"] in
  let st := run_schedule (env:=E) [2; 0; 2; 0; 2; 0; 2; 0]%nat
              ((λ pdf, process_pdf (env:=E) pdf (lit "out") (lit "audio")
                                   (lit "en") 5 10) <$> pdfs, Sample.fresh) in
  main_parallel (env:=E) pdfs (lit "out") (lit "audio") (lit "en") 5 10
                Sample.fresh st.1 st.2 ∧
  st.1 !! 1%nat = Some (Raise (OtherException (lit "PDFSyntaxError")
                                              (lit "No /Root object!"))) ∧
  st.1 !! 2%nat = Some (Ret ()) ∧
  targets (env:=E) (lit "out") (lit "audio") (lit "in/c.pdf") ⊆ dom (files st.2).
Proof.
  intros E pdfs st.
  assert (Hpar : main_parallel (env:=E) pdfs (lit "out") (lit "audio") (lit "en")
                   5 10 Sample.fresh st.1 st.2).
  { split.
    - rewrite <- surjective_pairing. apply run_schedule_steps.
    - assert (Hst : st.1 = [Ret (); Raise (OtherException (lit "PDFSyntaxError")
                                             (lit "No /Root object!")); Ret ()])
        by reflexivity.
      rewrite Hst. repeat constructor. }
  split; [exact Hpar|]. split; [reflexivity|]. split; [reflexivity|].
  destruct (main_parallel_outputs (env:=E) pdfs (lit "out") (lit "audio") (lit "en")
              5 10 Sample.fresh st.1 st.2 Hpar) as (_ & _ & _ & Hret).
  apply (Hret 2%nat (lit "in/c.pdf")); reflexivity.
Defined.

Lemma main_parallel_rerun_is_quiet_witness :
  let E := Sample.env Sample.always_limited in
  let pdfs := [lit "in/a.pdf"; lit "in/b.pdf"] in
  let st := run_schedule (env:=E) [1; 0; 0; 0; 0]%nat
              ((λ pdf, process_pdf (env:=E) pdf (lit "out") (lit "audio")
                                   (lit "en") 5 10) <$> pdfs, Sample.with_audio) in
  main_parallel (env:=E) pdfs (lit "out") (lit "audio") (lit "en") 5 10
                Sample.with_audio st.1 st.2 ∧
  tts_calls st.2 = [] ∧ sleeps st.2 = [] ∧ Forall (λ c, c = Ret ()) st.1.
Proof.
  intros E pdfs st.
  assert (Hpar : main_parallel (env:=E) pdfs (lit "out") (lit "audio") (lit "en")
                   5 10 Sample.with_audio st.1 st.2).
  { split.
    - rewrite <- surjective_pairing. apply run_schedule_steps.
    - assert (Hst : st.1 = [Ret (); Ret ()]) by reflexivity.
      rewrite Hst. repeat constructor. }
  split; [exact Hpar|].
  apply (main_parallel_rerun_is_quiet (env:=E) pdfs (lit "out") (lit "audio")
           (lit "en") 5 10 Sample.with_audio st.1 st.2); [|exact Hpar].
  constructor; [|constructor; [|constructor]].
  - exists (lit "Hello world"). split; [reflexivity|]. right.
    exists (AudioFile (lit "old")). reflexivity.
  - exists [0x20; 0x0A; 0x3000]%N. split; [reflexivity|]. left. reflexivity.
Defined.

Lemma sequential_run_is_a_parallel_run_witness :
  let E := Sample.env Sample.served in
  let pdfs := [lit "in/a.pdf"; lit "in/c.pdf"] in
  let w' := (run (env:=E) (main_sequential (env:=E) pdfs (lit "out") (lit "audio")
                             (lit "en") 5 10) Sample.fresh).2 in
  main_parallel (env:=E) pdfs (lit "out") (lit "audio") (lit "en") 5 10
                Sample.fresh [Ret (); Ret ()] w'.
Proof.
  intros E pdfs w'.
  apply (sequential_run_is_a_parallel_run (env:=E) pdfs (lit "out") (lit "audio")
           (lit "en") 5 10 Sample.fresh w').
  reflexivity.
Defined.

Lemma main_parallel_steps_bounded_witness :
  let E := Sample.env Sample.served in
  let pdfs := [lit "in/a.pdf"; lit "in/c.pdf"] in
  ∃ st,
    nsteps (pool_step (env:=E)) 2
      ((λ pdf, process_pdf (env:=E) pdf (lit "out") (lit "audio") (lit "en") 5 1)
         <$> pdfs, Sample.fresh) st ∧
    (2 ≤ length pdfs * (4 + 3 * Z.to_nat 1))%nat.
Proof.
  intros E pdfs.
  assert (Hsteps : ∃ st, nsteps (pool_step (env:=E)) 2
            ((λ pdf, process_pdf (env:=E) pdf (lit "out") (lit "audio") (lit "en") 5 1)
               <$> pdfs, Sample.fresh) st).
  { eexists.
    eapply nsteps_l; [eapply (pool_step_at (env:=E)) with (i:=1%nat); reflexivity|].
    eapply nsteps_l; [eapply (pool_step_at (env:=E)) with (i:=0%nat); reflexivity|].
    apply nsteps_O. }
  destruct Hsteps as [st Hsteps]. exists st. split; [exact Hsteps|].
  exact (main_parallel_steps_bounded (env:=E) pdfs (lit "out") (lit "audio")
           (lit "en") 5 1 Sample.fresh 2 st Hsteps).
Defined.

Lemma served_runs_return_witness :
  let E := Sample.env Sample.served in
  let pdfs := [lit "in/a.pdf"; lit "in/b.pdf"; lit "in/c.pdf"] in
  (∀ n text lang, ∃ data, gtts (Collaborators:=E) n text lang = inr data) ∧
  Forall (λ pdf, ∃ pages, pdfplumber_open (Collaborators:=E) pdf = inr pages) pdfs ∧
  ∃ w_seq, run (env:=E) (main_sequential (env:=E) pdfs (lit "out") (lit "audio")
                           (lit "en") 5 10) Sample.fresh = (inr (), w_seq).
Proof.
  intros E pdfs.
  assert (Hserved : ∀ n text lang, ∃ data, gtts (Collaborators:=E) n text lang = inr data).
  { intros n text lang. eexists. reflexivity. }
  assert (Hopen : Forall (λ pdf, ∃ pages, pdfplumber_open (Collaborators:=E) pdf = inr pages)
                         pdfs).
  { repeat constructor; eexists; reflexivity. }
  split; [exact Hserved|]. split; [exact Hopen|].
  exact (proj1 (served_runs_return (env:=E) pdfs (lit "out") (lit "audio") (lit "en")
                  5 10 Sample.fresh Hserved Hopen eq_refl)).
Defined.

Lemma is_cached_tells_cache_hit_witness :
  let E := Sample.env Sample.always_limited in
  run (env:=E) (is_cached (env:=E) (lit "a") (lit "audio")) Sample.with_audio
    = (inr true, Sample.with_audio) ∧
  run (env:=E) (convert_text_to_speech (env:=E) (lit "hi") (lit "a") (lit "audio")
                  (lit "en") 5 10) Sample.with_audio
    = (inr (lit "audio/a.mp3"), log_notice (UsingExisting (lit "a")) Sample.with_audio).
Proof.
  intros E. split; [reflexivity|].
  destruct (is_cached_tells_cache_hit (env:=E) (lit "hi") (lit "a") (lit "audio")
              (lit "en") 5 10 Sample.with_audio) as (_ & Hhit & _).
  apply Hhit. reflexivity.
Defined.
